(** * I2C observer applet: host-side protocol decoder

    Shallow embedding of
    [software/glasgow/applet/interface/i2c_observer/__init__.py]:
    the wire codec ([decode_event], [is_ack], [is_read],
    [to_7bit_address]), the transaction decoder ([iter_xfer]), the address
    filter ([is_filtered]), the trace formatter ([print_xfer]), the
    transaction reader ([read_xfer], [read_byte]) and the processing loop
    ([interact]).

    Python integers are modelled as [Z]; [&] is [Z.land] and [>>] is
    [Z.shiftr], which agree with Python on every integer.  Python lists of
    integers are [list Z]; [None] is [None]. *)

From Stdlib Require Import ZArith List Bool Lia.
From Stdlib Require String Ascii.
Import ListNotations.
Local Open Scope Z_scope.

(** ** Wire codec *)

(** [class Event(enum.IntEnum)]. *)
Module Event.
Definition START : Z := 0x10.
Definition STOP  : Z := 0x20.
Definition BYTE  : Z := 0x30.
Definition ACK   : Z := 0x40. (* LSB contains value *)
End Event.

(** [decode_event]: [(value & 0xF0, value & 0x0F)]. *)
Definition decode_event (value : Z) : Z * Z :=
  (Z.land value 0xF0, Z.land value 0x0F).

(** [is_ack]: [(value & 0x1) != 0x1]. *)
Definition is_ack (value : Z) : bool :=
  negb (Z.land value 0x1 =? 0x1).

(** [is_read]: [(address & 0x1) == 0x1]. *)
Definition is_read (address : Z) : bool :=
  Z.land address 0x1 =? 0x1.

(** [to_7bit_address]: [address >> 0x1]. *)
Definition to_7bit_address (address : Z) : Z :=
  Z.shiftr address 0x1.

(** ** Transaction decoder *)

(** One tuple yielded by [iter_xfer]: [(event, data, is_address)].  The
    middle component is [None] for START and STOP, the low nibble for ACK,
    and for BYTE the result of [next(xfer_iter, None)]: the following raw
    byte, or [None] when the sequence ends on the opcode byte. *)
Definition yielded : Type := Z * option Z * bool.

(** The body of the [for e in xfer_iter] loop of [iter_xfer], with the
    local [is_address] as an argument.  A BYTE opcode takes the next
    element of the same iterator, so the loop resumes after it.  The
    [match] has no default case: a byte with any other tag yields nothing
    and leaves [is_address] as it is. *)
Fixpoint iter_loop (is_address : bool) (xfer : list Z) : list yielded :=
  match xfer with
  | [] => []
  | e :: xfer_iter =>
    let '(event, event_data) := decode_event e in
    if event =? Event.START then
      (event, None, false) :: iter_loop true xfer_iter
    else if event =? Event.BYTE then
      match xfer_iter with
      | [] => [(event, None, is_address)]
      | d :: xfer_iter => (event, Some d, is_address) :: iter_loop false xfer_iter
      end
    else if event =? Event.ACK then
      (event, Some event_data, false) :: iter_loop is_address xfer_iter
    else if event =? Event.STOP then
      (event, None, false) :: iter_loop is_address xfer_iter
    else
      iter_loop is_address xfer_iter
  end.

(** [iter_xfer]: the loop started with [is_address = False]. *)
Definition iter_xfer (xfer : list Z) : list yielded :=
  iter_loop false xfer.

(** ** Effects

    [self.logger.warning] calls are recorded as a list of [warning]s, text
    written by [print] as a list of [printed] items, and a raised exception
    as the [Raise] result. *)

Inductive warning : Type :=
| Warn_not_start (event : Z)      (* "xfer does not start with a START event: 0x.." *)
| Warn_no_address (len : nat)     (* "xfer does contain address .." *)
| Warn_unknown_event (value : Z)  (* "Unknown Event: .." *)
| Warn_time_out.                  (* "I2C transfer time out" *)

Inductive exn : Type :=
| IndexError   (* list index out of range *)
| TypeError.   (* [None & 0x1], or [None] formatted with [02x] *)

Inductive result (A : Type) : Type :=
| Return (a : A)
| Raise (e : exn).
Arguments Return {A} a.
Arguments Raise {A} e.

(** [iter_xfer] together with what it logs.  The generator holds no call
    to [self.logger], so the list of warnings is empty on every input. *)
Definition iter_xfer_logged (xfer : list Z) : list warning * list yielded :=
  ([], iter_xfer xfer).

(** ** Address filter *)

(** [is_filtered(xfer, args)], with [args.trace_i2c] as the second
    argument.  [xfer[0]] is evaluated first and raises [IndexError] on an
    empty list; [address not in include] compares with [==]. *)
Definition is_filtered (xfer : list Z) (trace_i2c : list Z)
  : list warning * result bool :=
  match nth_error xfer 0 with
  | None => ([], Raise IndexError)
  | Some x0 =>
    let '(event, _) := decode_event x0 in
    if negb (event =? Event.START) then
      ([Warn_not_start event], Return false)
    else if (length xfer <? 3)%nat then
      ([Warn_no_address (length xfer)], Return false)
    else
      match nth_error xfer 2 with
      | None => ([], Raise IndexError)
      | Some x2 =>
        let address := to_7bit_address x2 in
        let include := trace_i2c in
        if (0 <? length include)%nat then
          ([], Return (negb (existsb (Z.eqb address) include)))
        else
          ([], Return false)
      end
  end.

(** ** Trace formatter *)

(** The pieces of text [print_xfer] writes, one constructor per [print]
    call, carrying the values that are formatted into it. *)
Inductive printed : Type :=
| Print_START (counter : Z)  (* f"{counter:04d} {cli_blue('START')}" *)
| Print_op (read : bool)     (* " R" when [read], else " W" *)
| Print_addr (addr : Z)      (* " " and cli_yellow(f"{addr:02x}") *)
| Print_data (data : Z)      (* f" {data:02x}" *)
| Print_ack (ack : bool)     (* " " and cli_green("A") when [ack], else cli_red("N") *)
| Print_STOP.                (* cli_blue(" STOP"), ending the line *)

(** The [for] loop of [print_xfer] over the tuples of [iter_xfer].  The
    result is the text written and either the final counter or the
    exception raised; text written before an exception stays written.
    [is_read], [to_7bit_address], [is_ack] and the [02x] format all raise
    [TypeError] on [None]. *)
Fixpoint print_loop (ys : list yielded) (counter : Z)
  : list printed * result Z :=
  match ys with
  | [] => ([], Return counter)
  | (event, data, is_address) :: ys =>
    if (event =? Event.START) && negb is_address then
      let counter := counter + 1 in
      let '(out, r) := print_loop ys counter in
      (Print_START counter :: out, r)
    else if (event =? Event.BYTE) && is_address then
      match data with
      | None => ([], Raise TypeError)
      | Some data =>
        let '(out, r) := print_loop ys counter in
        (Print_op (is_read data) :: Print_addr (to_7bit_address data) :: out, r)
      end
    else if (event =? Event.BYTE) && negb is_address then
      match data with
      | None => ([], Raise TypeError)
      | Some data =>
        let '(out, r) := print_loop ys counter in
        (Print_data data :: out, r)
      end
    else if (event =? Event.ACK) && negb is_address then
      match data with
      | None => ([], Raise TypeError)
      | Some data =>
        let '(out, r) := print_loop ys counter in
        (Print_ack (is_ack data) :: out, r)
      end
    else if (event =? Event.STOP) && negb is_address then
      let '(out, r) := print_loop ys counter in
      (Print_STOP :: out, r)
    else
      print_loop ys counter
  end.

(** [print_xfer(events, counter)]. *)
Definition print_xfer (events : list Z) (counter : Z)
  : list printed * result Z :=
  print_loop (iter_xfer events) counter.

(** ** Byte source and transaction reader *)

(** What the byte source will deliver, in order.  Each byte comes either
    within the stall deadline of the read that waits for it ([Prompt]) or
    only after it ([Late]).  After the last element nothing arrives any
    more. *)
Inductive arrival : Type :=
| Prompt (b : Z)
| Late (b : Z).

Definition byte_source : Type := list arrival.

Definition arrival_byte (a : arrival) : Z :=
  match a with Prompt b => b | Late b => b end.

(** The stall deadline, [timeout = 0.3] seconds, in milliseconds. *)
Definition stall_deadline : Z := 300.

Inductive read_outcome : Type :=
| Got (value : Z) (iface : byte_source)  (* the byte read, and the source after it *)
| TimeoutError                           (* asyncio.TimeoutError; nothing is consumed *)
| Pending.                               (* the await never completes *)

(** [read_byte(iface, timeout)]: [asyncio.wait_for(iface.read(1), timeout)].
    Without a deadline the read waits for the next byte however late it
    is; with a deadline it gives up on a late byte, which stays in the
    source. *)
Definition read_byte (iface : byte_source) (timeout : option Z) : read_outcome :=
  match iface, timeout with
  | [], None => Pending
  | [], Some _ => TimeoutError
  | Prompt b :: iface, _ => Got b iface
  | Late b :: iface, None => Got b iface
  | Late _ :: _, Some _ => TimeoutError
  end.

(** The variables of [read_xfer] at the top of its [while True] loop. *)
Record reader : Type := Reader {
  iface : byte_source;
  events : list Z;
  timeout : option Z;
  log : list warning
}.

(** How a call of [read_xfer] ends. *)
Inductive xfer_outcome : Type :=
| Returned (events : list Z)         (* return events *)
| XferTimeoutError (xfer : list Z)   (* raise XferTimeoutError(events) *)
| Blocked.                           (* the first read never completes *)

Inductive iteration : Type :=
| Continue (st : reader)
| Finish (o : xfer_outcome) (iface : byte_source) (log : list warning).

(** One pass through the body of the [while True] loop of [read_xfer],
    inside its [try]: an [asyncio.TimeoutError] from either read becomes
    [XferTimeoutError(events)] with the events appended so far. *)
Definition loop_body (st : reader) : iteration :=
  match read_byte (iface st) (timeout st) with
  | Pending => Finish Blocked (iface st) (log st)
  | TimeoutError => Finish (XferTimeoutError (events st)) (iface st) (log st)
  | Got value iface1 =>
    let event := Z.land value 0xF0 in
    if event =? Event.START then
      Continue (Reader iface1 (events st ++ [value]) (Some stall_deadline) (log st))
    else if event =? Event.BYTE then
      match read_byte iface1 (Some stall_deadline) with
      | Pending => Finish Blocked iface1 (log st)
      | TimeoutError =>
        Finish (XferTimeoutError (events st ++ [value])) iface1 (log st)
      | Got data iface2 =>
        Continue (Reader iface2 ((events st ++ [value]) ++ [data])
                         (Some stall_deadline) (log st))
      end
    else if event =? Event.ACK then
      Continue (Reader iface1 (events st ++ [value]) (Some stall_deadline) (log st))
    else if event =? Event.STOP then
      Finish (Returned (events st ++ [value])) iface1 (log st)
    else
      Continue (Reader iface1 (events st) (Some stall_deadline)
                       (log st ++ [Warn_unknown_event value]))
  end.

(** The loop, run for at most [fuel] passes. *)
Fixpoint read_loop (fuel : nat) (st : reader)
  : option (xfer_outcome * byte_source * list warning) :=
  match fuel with
  | O => None
  | S fuel =>
    match loop_body st with
    | Continue st => read_loop fuel st
    | Finish o iface log => Some (o, iface, log)
    end
  end.

(** The variables of [read_xfer] on entry: [events = []], [timeout = None]. *)
Definition fresh (iface : byte_source) : reader :=
  Reader iface [] None [].

(** [read_xfer(iface)].  Every pass that continues has consumed a byte, so
    one pass more than the source has elements is enough
    ([read_xfer_total]). *)
Definition read_xfer (iface : byte_source)
  : option (xfer_outcome * byte_source * list warning) :=
  read_loop (S (length iface)) (fresh iface).

(** The states the loop of [read_xfer] passes through. *)
Inductive reaches : reader -> reader -> Prop :=
| reaches_here st : reaches st st
| reaches_next st st1 st2 :
    loop_body st = Continue st1 -> reaches st1 st2 -> reaches st st2.

(** ** Processing loop *)

(** How [interact] stops on a source that delivers finitely many bytes. *)
Inductive interact_outcome : Type :=
| Waiting (counter : Z)  (* awaiting the first byte of the next transfer *)
| Crashed (e : exn).     (* an exception leaves [interact] *)

Definition interact_result : Type :=
  list warning * list printed * interact_outcome.

Definition then_ (w : list warning) (out : list printed)
    (k : option interact_result) : option interact_result :=
  match k with
  | None => None
  | Some (w', out', o) => Some (w ++ w', out ++ out', o)
  end.

(** The [while True] loop of [interact], run for at most [fuel] passes.
    [except XferTimeoutError] catches neither [IndexError] nor
    [TypeError], and an exception raised inside the handler leaves the
    loop as well.  The handler calls [print_xfer] without assigning its
    result to [counter]. *)
Fixpoint interact_loop (fuel : nat) (iface : byte_source)
    (trace_i2c : list Z) (counter : Z) : option interact_result :=
  match fuel with
  | O => None
  | S fuel =>
    match read_xfer iface with
    | None => None
    | Some (Blocked, _, w) => Some (w, [], Waiting counter)
    | Some (Returned xfer, iface, w) =>
      let '(w1, filtered) := is_filtered xfer trace_i2c in
      match filtered with
      | Raise e => Some (w ++ w1, [], Crashed e)
      | Return true =>
        then_ (w ++ w1) [] (interact_loop fuel iface trace_i2c counter)
      | Return false =>
        let '(out, r) := print_xfer xfer counter in
        match r with
        | Raise e => Some (w ++ w1, out, Crashed e)
        | Return counter =>
          then_ (w ++ w1) out (interact_loop fuel iface trace_i2c counter)
        end
      end
    | Some (XferTimeoutError xfer, iface, w) =>
      let '(out, r) := print_xfer xfer counter in
      match r with
      | Raise e => Some (w ++ [Warn_time_out], out, Crashed e)
      | Return _ =>
        then_ (w ++ [Warn_time_out]) out
              (interact_loop fuel iface trace_i2c counter)
      end
    end
  end.

(** [interact], with [counter = 0] on entry. *)
Definition interact (iface : byte_source) (trace_i2c : list Z)
  : option interact_result :=
  interact_loop (S (length iface)) iface trace_i2c 0.

(** The counters displayed, in the order they are printed. *)
Fixpoint counters (out : list printed) : list Z :=
  match out with
  | [] => []
  | Print_START counter :: out => counter :: counters out
  | _ :: out => counters out
  end.

(** ** Vocabulary of the statements *)

Definition is_start (y : yielded) : bool :=
  let '(event, _, _) := y in event =? Event.START.

Definition is_byte (y : yielded) : bool :=
  let '(event, _, _) := y in event =? Event.BYTE.

(** A BYTE tuple flagged as the address. *)
Definition is_address_byte (y : yielded) : bool :=
  let '(event, _, is_address) := y in (event =? Event.BYTE) && is_address.

Definition no_byte (ys : list yielded) : bool :=
  forallb (fun y => negb (is_byte y)) ys.

(** [pre] holds a START with no BYTE after it: the next BYTE is the first
    one following a START. *)
Definition start_pending (pre : list yielded) : Prop :=
  exists p1 s p2, pre = p1 ++ s :: p2 /\ is_start s = true /\ no_byte p2 = true.

(** Every START is followed by a flagged BYTE with no BYTE in between. *)
Definition address_per_start (ys : list yielded) : Prop :=
  forall pre s post, ys = pre ++ s :: post -> is_start s = true ->
    exists mid d post',
      post = mid ++ d :: post' /\ no_byte mid = true /\ is_address_byte d = true.

(** The flag [is_address] of [iter_xfer] after it has yielded [ys],
    started from [flag]. *)
Fixpoint flag_after (flag : bool) (ys : list yielded) : bool :=
  match ys with
  | [] => flag
  | y :: ys =>
    flag_after (if is_start y then true else if is_byte y then false else flag) ys
  end.

(** A tag that is one of the four members of [Event]. *)
Definition known_tag (value : Z) : bool :=
  let event := Z.land value 0xF0 in
  (event =? Event.START) || (event =? Event.BYTE)
  || (event =? Event.ACK) || (event =? Event.STOP).

(** After the bytes [pre], the decoder reads the next byte as an event
    (and not as the data byte of a BYTE opcode that ends [pre]). *)
Fixpoint event_position (pre : list Z) : bool :=
  match pre with
  | [] => true
  | e :: rest =>
    if Z.land e 0xF0 =? Event.BYTE then
      match rest with
      | [] => false
      | _ :: rest => event_position rest
      end
    else event_position rest
  end.

(** The transfer a call of [read_xfer] hands to its caller, returned or
    carried by the exception. *)
Definition handed_over (r : option (xfer_outcome * byte_source * list warning))
  : option (list Z) :=
  match r with
  | Some (Returned xfer, _, _) => Some xfer
  | Some (XferTimeoutError xfer, _, _) => Some xfer
  | _ => None
  end.

(** ** Further vocabulary *)

(** The five shapes of tuple that the [match] of [print_xfer] has a case
    for: START, STOP and ACK unflagged, BYTE flagged or not. *)
Definition well_shaped (y : yielded) : Prop :=
  y = (Event.START, None, false)
  \/ y = (Event.STOP, None, false)
  \/ (exists value, y = (Event.ACK, Some value, false) /\ 0 <= value < 16)
  \/ (exists data is_address, y = (Event.BYTE, data, is_address)).

(** The START tuples among [ys]. *)
Definition starts (ys : list yielded) : nat :=
  length (filter is_start ys).

(** The counters [first + 1], ..., [first + n]. *)
Definition counters_from (first : Z) (n : nat) : list Z :=
  map (fun k => first + Z.of_nat k) (seq 1 n).

(** The bytes of [bytes] that a decoder of tokens keeps: a byte with a
    known tag in event position, and the byte after a BYTE opcode
    whatever its value. *)
Fixpoint kept_bytes (bytes : list Z) : list Z :=
  match bytes with
  | [] => []
  | e :: rest =>
    if Z.land e 0xF0 =? Event.BYTE then
      match rest with
      | [] => [e]
      | d :: rest => e :: d :: kept_bytes rest
      end
    else if known_tag e then e :: kept_bytes rest
    else kept_bytes rest
  end.

(** The other bytes of [bytes]: those with an unknown tag in event
    position. *)
Fixpoint dropped_bytes (bytes : list Z) : list Z :=
  match bytes with
  | [] => []
  | e :: rest =>
    if Z.land e 0xF0 =? Event.BYTE then
      match rest with
      | [] => []
      | _ :: rest => dropped_bytes rest
      end
    else if known_tag e then dropped_bytes rest
    else e :: dropped_bytes rest
  end.

(** [bytes] is one whole transfer: tokens with known tags, each BYTE
    opcode followed by its data byte, and a STOP as the last token and
    nowhere before. *)
Fixpoint frame_ok (bytes : list Z) : bool :=
  match bytes with
  | [] => false
  | e :: rest =>
    if Z.land e 0xF0 =? Event.BYTE then
      match rest with
      | [] => false
      | _ :: rest => frame_ok rest
      end
    else if Z.land e 0xF0 =? Event.STOP then
      match rest with
      | [] => true
      | _ :: _ => false
      end
    else if known_tag e then frame_ok rest
    else false
  end.

Definition is_prompt (a : arrival) : bool :=
  match a with Prompt _ => true | Late _ => false end.

(** ** Gateware: [I2CObserverSubtarget]

    The synchronous logic that [elaborate] builds, as the function from
    the registers and the signals of [I2CObserver] in one clock cycle to
    the registers after the clock edge.  [I2CObserver] itself and the FIFO
    are outside this file: the observer's signals are inputs, and the
    FIFO takes [w_data] in every cycle in which [w_en] is set. *)
Module I2CObserverSubtarget.

(** The signals of [i2c_observer] that [elaborate] reads. *)
Record observer : Type := Observer {
  bus_start : bool;  (* i2c_observer.bus.start *)
  bus_stop : bool;   (* i2c_observer.bus.stop *)
  ack : bool;        (* i2c_observer.ack *)
  ack_o : Z;         (* i2c_observer.ack_o *)
  byte : bool;       (* i2c_observer.byte *)
  byte_o : Z         (* i2c_observer.byte_o *)
}.

Inductive fsm_state : Type :=
| TRACE      (* the first state declared, so the reset state *)
| XFER_VAL.

(** The registers of the [sync] domain: the FSM state, [byte_val], and the
    two signals driven into the FIFO. *)
Record regs : Type := Regs {
  fsm : fsm_state;
  byte_val : Z;   (* Signal(8) *)
  w_en : bool;    (* in_fifo.w_en *)
  w_data : Z      (* in_fifo.w_data, 8 bits *)
}.

Definition reset : regs := Regs TRACE 0 false 0.

(** One clock edge.  The two assignments before the FSM give [w_en] and
    [w_data] their value for a cycle in which nothing else assigns them.
    In TRACE the four [If] blocks are separate statements, so when several
    conditions hold the assignment written last wins.  Values are cut to
    the 8 bits of the signal they are assigned to. *)
Definition elaborate (r : regs) (i : observer) : regs :=
  let w_en0 := false in
  let w_data0 := 0x00 in
  match fsm r with
  | TRACE =>
    let '(w_data1, w_en1) :=
      if bus_start i then (Event.START, true) else (w_data0, w_en0) in
    let '(w_data2, w_en2) :=
      if bus_stop i then (Event.STOP, true) else (w_data1, w_en1) in
    let '(w_data3, w_en3) :=
      if ack i then (Z.lor Event.ACK (ack_o i), true) else (w_data2, w_en2) in
    let '(w_data4, w_en4) :=
      if byte i then (Event.BYTE, true) else (w_data3, w_en3) in
    Regs (if byte i then XFER_VAL else TRACE)
         (if byte i then Z.land (byte_o i) 0xFF else byte_val r)
         w_en4
         (Z.land w_data4 0xFF)
  | XFER_VAL =>
    Regs TRACE (byte_val r) true (Z.land (byte_val r) 0xFF)
  end.

(** The registers after each clock edge, for the inputs of successive
    cycles. *)
Fixpoint run (r : regs) (inputs : list observer) : list regs :=
  match inputs with
  | [] => []
  | i :: inputs => let r := elaborate r i in r :: run r inputs
  end.

(** The bytes the FIFO takes from a sequence of register values. *)
Fixpoint fifo_writes (rs : list regs) : list Z :=
  match rs with
  | [] => []
  | r :: rs => if w_en r then w_data r :: fifo_writes rs else fifo_writes rs
  end.

(** The FSM state after the inputs. *)
Definition final_state (r : regs) (inputs : list observer) : fsm_state :=
  fsm (last (run r inputs) r).

End I2CObserverSubtarget.

(** What happens on the bus, one event at a time. *)
Inductive bus_event : Type :=
| Bus_start
| Bus_stop
| Bus_ack (ack_o : Z)
| Bus_byte (byte_o : Z)
| Bus_idle.

(** The observer signals no event, or exactly one. *)
Definition strobes (i : I2CObserverSubtarget.observer) : bool * bool * bool * bool :=
  (I2CObserverSubtarget.bus_start i, I2CObserverSubtarget.bus_stop i,
   I2CObserverSubtarget.ack i, I2CObserverSubtarget.byte i).

(** [drives evs inputs]: the cycles [inputs] signal the events [evs], one
    event per cycle.  The cycle after a byte strobe is the one in which
    the FSM is in XFER-VAL; what the observer signals in it is left
    open. *)
Inductive drives : list bus_event -> list I2CObserverSubtarget.observer -> Prop :=
| drives_nil : drives [] []
| drives_start i evs inputs :
    strobes i = (true, false, false, false) ->
    drives evs inputs -> drives (Bus_start :: evs) (i :: inputs)
| drives_stop i evs inputs :
    strobes i = (false, true, false, false) ->
    drives evs inputs -> drives (Bus_stop :: evs) (i :: inputs)
| drives_ack i evs inputs :
    strobes i = (false, false, true, false) ->
    drives evs inputs ->
    drives (Bus_ack (I2CObserverSubtarget.ack_o i) :: evs) (i :: inputs)
| drives_byte i j evs inputs :
    strobes i = (false, false, false, true) ->
    drives evs inputs ->
    drives (Bus_byte (I2CObserverSubtarget.byte_o i) :: evs) (i :: j :: inputs)
| drives_idle i evs inputs :
    strobes i = (false, false, false, false) ->
    drives evs inputs -> drives (Bus_idle :: evs) (i :: inputs).

(** The event and data that the host should decode for a bus event. *)
Definition sent (ev : bus_event) : list (Z * option Z) :=
  match ev with
  | Bus_start => [(Event.START, None)]
  | Bus_stop => [(Event.STOP, None)]
  | Bus_ack ack_o => [(Event.ACK, Some ack_o)]
  | Bus_byte byte_o => [(Event.BYTE, Some (Z.land byte_o 0xFF))]
  | Bus_idle => []
  end.

(** The bytes on the wire for a bus event. *)
Definition wire (ev : bus_event) : list Z :=
  match ev with
  | Bus_start => [Event.START]
  | Bus_stop => [Event.STOP]
  | Bus_ack ack_o => [Z.lor Event.ACK ack_o]
  | Bus_byte byte_o => [Event.BYTE; Z.land byte_o 0xFF]
  | Bus_idle => []
  end.

(** The acknowledge values among the events fit the low nibble. *)
Definition acks_fit (evs : list bus_event) : Prop :=
  forall ack_o, In (Bus_ack ack_o) evs -> 0 <= ack_o < 16.

(** ** [cli_colors]

    [os.name] and the class attribute [CliColor.Disabled] are read when a
    helper is called; here they are arguments. *)
Module cli_colors.
Import String.

Module CliColor.
Definition ESC : string := String (Ascii.ascii_of_nat 27) EmptyString.  (* '\033' *)
Definition GREEN : string := append ESC "[92m".
Definition BLUE : string := append ESC "[94m".
Definition CYAN : string := append ESC "[96m".
Definition YELLOW : string := append ESC "[93m".
Definition RED : string := append ESC "[91m".
Definition BG_RED : string := append ESC "[101m".
Definition ENDC : string := append ESC "[0m".
End CliColor.

(** [_cli(s, c)]: [os.name == 'nt' or CliColor.Disabled] returns [s],
    otherwise the f-string [{c}{s}{CliColor.ENDC}]. *)
Definition _cli (os_name : string) (Disabled : bool) (s c : string) : string :=
  if eqb os_name "nt" || Disabled then s
  else append c (append s CliColor.ENDC).

Definition cli_green (os_name : string) (Disabled : bool) (s : string) : string :=
  _cli os_name Disabled s CliColor.GREEN.

Definition cli_yellow (os_name : string) (Disabled : bool) (s : string) : string :=
  _cli os_name Disabled s CliColor.YELLOW.

Definition cli_red (os_name : string) (Disabled : bool) (s : string) : string :=
  _cli os_name Disabled s CliColor.RED.

Definition cli_blue (os_name : string) (Disabled : bool) (s : string) : string :=
  _cli os_name Disabled s CliColor.BLUE.

(** The string literal ["nt"]. *)
Definition nt : string := "nt".

End cli_colors.

(** * Properties *)

(** ** The decoder *)

(** C1. Decoding the wire bytes [0x10, 0x30, 0xA3, 0x40, 0x30, 0x55, 0x41,
    0x20] yields START, then BYTE 0xA3 flagged as the address, then an ACK
    whose value [is_ack] reads as acknowledged, then BYTE 0x55 not flagged,
    then an ACK whose value [is_ack] reads as not acknowledged, then
    STOP. *)
Theorem iter_xfer_round_trip :
  iter_xfer [0x10; 0x30; 0xA3; 0x40; 0x30; 0x55; 0x41; 0x20] =
    [ (Event.START, None, false);
      (Event.BYTE, Some 0xA3, true);
      (Event.ACK, Some 0x0, false);
      (Event.BYTE, Some 0x55, false);
      (Event.ACK, Some 0x1, false);
      (Event.STOP, None, false) ]
  /\ is_ack 0x0 = true
  /\ is_ack 0x1 = false.
Proof. repeat split; reflexivity. Qed.

(** Induction over a byte sequence that may drop one byte or two, as the
    decoder does. *)
Lemma token_ind (P : list Z -> Prop) :
  P [] ->
  (forall e rest, P rest -> P (tl rest) -> P (e :: rest)) ->
  forall l, P l.
Proof.
  intros Hnil Hcons l.
  enough (H : P l /\ P (tl l)) by apply H.
  induction l as [|e rest [IH1 IH2]]; simpl; auto.
Qed.

Lemma iter_loop_cons is_address e rest :
  iter_loop is_address (e :: rest) =
    let event := Z.land e 0xF0 in
    if event =? Event.START then
      (event, None, false) :: iter_loop true rest
    else if event =? Event.BYTE then
      match rest with
      | [] => [(event, None, is_address)]
      | d :: rest => (event, Some d, is_address) :: iter_loop false rest
      end
    else if event =? Event.ACK then
      (event, Some (Z.land e 0x0F), false) :: iter_loop is_address rest
    else if event =? Event.STOP then
      (event, None, false) :: iter_loop is_address rest
    else
      iter_loop is_address rest.
Proof. reflexivity. Qed.

Lemma start_not_byte y : is_start y = true -> is_byte y = false.
Proof.
  destruct y as [[event data] a]; simpl.
  intros H; apply Z.eqb_eq in H; subst event; reflexivity.
Qed.

Ltac tag_cases e :=
  rewrite iter_loop_cons; cbv zeta;
  destruct (Z.land e 0xF0 =? Event.START) eqn:Hstart;
  [ apply Z.eqb_eq in Hstart; rewrite Hstart
  | destruct (Z.land e 0xF0 =? Event.BYTE) eqn:Hbyte;
    [ apply Z.eqb_eq in Hbyte; rewrite Hbyte
    | destruct (Z.land e 0xF0 =? Event.ACK) eqn:Hack;
      [ apply Z.eqb_eq in Hack; rewrite Hack
      | destruct (Z.land e 0xF0 =? Event.STOP) eqn:Hstop;
        [ apply Z.eqb_eq in Hstop; rewrite Hstop | ] ] ] ].

(** The flag a BYTE tuple carries is the flag the loop holds after the
    tuples yielded before it. *)
Lemma iter_loop_flag xfer :
  forall flag pre event data is_address post,
    iter_loop flag xfer = pre ++ (event, data, is_address) :: post ->
    event = Event.BYTE ->
    is_address = flag_after flag pre.
Proof.
  induction xfer as [|e rest IH1 IH2] using token_ind;
    intros flag pre event data is_address post Heq Hev.
  - destruct pre; discriminate.
  - revert Heq. tag_cases e; intros Heq.
    + destruct pre as [|p pre]; simpl in Heq; inversion Heq; subst.
      * discriminate.
      * simpl. eapply IH1; eauto.
    + destruct rest as [|d rest].
      * destruct pre as [|p [|q pre]]; simpl in Heq; inversion Heq; subst.
        reflexivity.
      * destruct pre as [|p pre]; simpl in Heq; inversion Heq; subst.
        -- reflexivity.
        -- simpl. eapply IH2; eauto.
    + destruct pre as [|p pre]; simpl in Heq; inversion Heq; subst.
      * discriminate.
      * simpl. eapply IH1; eauto.
    + destruct pre as [|p pre]; simpl in Heq; inversion Heq; subst.
      * discriminate.
      * simpl. eapply IH1; eauto.
    + eapply IH1; eauto.
Qed.

Lemma start_pending_cons y ys :
  start_pending (y :: ys) <->
  start_pending ys \/ (is_start y = true /\ no_byte ys = true).
Proof.
  unfold start_pending. split.
  - intros (p1 & s & p2 & Heq & Hs & Hn).
    destruct p1 as [|p p1]; simpl in Heq; injection Heq as -> ->.
    + right; auto.
    + left. exists p1, s, p2; auto.
  - intros [(p1 & s & p2 & -> & Hs & Hn) | [Hs Hn]].
    + exists (y :: p1), s, p2; auto.
    + exists [], y, ys; auto.
Qed.

Lemma flag_after_true pre :
  forall flag,
    flag_after flag pre = true <->
    start_pending pre \/ (flag = true /\ no_byte pre = true).
Proof.
  induction pre as [|y ys IH]; intros flag; simpl.
  - split; [auto|].
    intros [(p1 & s & p2 & Heq & _) | [H _]]; [destruct p1; discriminate | auto].
  - rewrite IH, start_pending_cons.
    destruct (is_start y) eqn:Hs.
    + rewrite (start_not_byte y Hs). simpl. intuition congruence.
    + destruct (is_byte y) eqn:Hb; simpl; intuition congruence.
Qed.

(** C2, as amended. In what [iter_xfer] yields for any byte sequence, a
    BYTE tuple carries [is_address = True] if and only if it is the first
    BYTE after some START, that is, a START comes before it with no BYTE
    in between; every other BYTE tuple carries [False].  So a START has at
    most one flagged BYTE, and has one whenever a BYTE follows it. *)
Theorem is_address_first_after_start :
  forall xfer pre event data is_address post,
    iter_xfer xfer = pre ++ (event, data, is_address) :: post ->
    event = Event.BYTE ->
    (is_address = true <-> start_pending pre).
Proof.
  intros xfer pre event data is_address post Heq Hev.
  rewrite (iter_loop_flag _ _ _ _ _ _ _ Heq Hev), flag_after_true.
  intuition congruence.
Qed.

Lemma is_address_first_after_start_witness :
  iter_xfer [0x10; 0x30; 0xA3; 0x30; 0x55] =
    [(Event.START, None, false); (Event.BYTE, Some 0xA3, true)]
      ++ (Event.BYTE, Some 0x55, false) :: []
  /\ (false = true <->
      start_pending [(Event.START, None, false); (Event.BYTE, Some 0xA3, true)]).
Proof.
  split; [reflexivity|].
  apply (is_address_first_after_start
           [0x10; 0x30; 0xA3; 0x30; 0x55]
           [(Event.START, None, false); (Event.BYTE, Some 0xA3, true)]
           Event.BYTE (Some 0x55) false []); reflexivity.
Defined.

(** C2, as stated, fails: [0x10, 0x20] decodes to START, STOP, a START
    with no flagged BYTE after it. *)
Lemma address_per_start_fails :
  ~ address_per_start (iter_xfer [0x10; 0x20]).
Proof.
  intros H.
  destruct (H [] (Event.START, None, false) [(Event.STOP, None, false)]
              eq_refl eq_refl) as (mid & d & post' & Heq & _ & Hd).
  destruct mid as [|m mid]; simpl in Heq.
  - injection Heq as <- _. discriminate.
  - injection Heq as _ Heq. destruct mid; discriminate.
Qed.

Lemma iter_loop_unknown flag u post :
  known_tag u = false -> iter_loop flag (u :: post) = iter_loop flag post.
Proof.
  unfold known_tag; cbv zeta; intros H.
  repeat (apply orb_false_elim in H; destruct H as [H ?]).
  rewrite iter_loop_cons; cbv zeta.
  now repeat match goal with E : _ = false |- _ => rewrite E; clear E end.
Qed.

Lemma iter_loop_skips_unknown u post pre :
  known_tag u = false ->
  event_position pre = true ->
  forall flag, iter_loop flag (pre ++ u :: post) = iter_loop flag (pre ++ post).
Proof.
  intros Hu.
  induction pre as [|e rest IH1 IH2] using token_ind; intros Hpos flag.
  - apply iter_loop_unknown, Hu.
  - simpl app. rewrite !iter_loop_cons; cbv zeta. simpl in Hpos.
    destruct (Z.land e 0xF0 =? Event.START) eqn:Hstart.
    { apply Z.eqb_eq in Hstart. rewrite Hstart in Hpos. simpl in Hpos.
      f_equal; auto. }
    destruct (Z.land e 0xF0 =? Event.BYTE) eqn:Hbyte.
    { destruct rest as [|d rest]; [discriminate|]. simpl in *. f_equal; auto. }
    destruct (Z.land e 0xF0 =? Event.ACK); [f_equal; auto|].
    destruct (Z.land e 0xF0 =? Event.STOP); [f_equal; auto|auto].
Qed.

(** C9, as amended. A byte with an unknown tag that the decoder meets in
    event position is skipped, silently: the decoder logs nothing, the
    decode does not fail, and the events are those of the sequence without
    that byte. *)
Theorem iter_xfer_skips_unknown :
  forall pre u post,
    event_position pre = true ->
    known_tag u = false ->
    iter_xfer (pre ++ u :: post) = iter_xfer (pre ++ post)
    /\ iter_xfer_logged (pre ++ u :: post) = ([], iter_xfer (pre ++ post)).
Proof.
  intros pre u post Hpos Hu.
  assert (H : iter_xfer (pre ++ u :: post) = iter_xfer (pre ++ post))
    by (apply iter_loop_skips_unknown; assumption).
  split; [exact H|]. unfold iter_xfer_logged. now rewrite H.
Qed.

Lemma iter_xfer_skips_unknown_witness :
  iter_xfer ([0x10; 0x30; 0xA3] ++ 0x00 :: [0x40; 0x20]) =
    iter_xfer ([0x10; 0x30; 0xA3] ++ [0x40; 0x20])
  /\ iter_xfer_logged ([0x10; 0x30; 0xA3] ++ 0x00 :: [0x40; 0x20]) =
       ([], iter_xfer ([0x10; 0x30; 0xA3] ++ [0x40; 0x20])).
Proof.
  apply (iter_xfer_skips_unknown [0x10; 0x30; 0xA3] 0x00 [0x40; 0x20]);
    reflexivity.
Defined.

(** C9, as stated, fails: the byte [0x00] between a START and a STOP has
    an unknown tag and is skipped, and no warning is logged for it. *)
Lemma iter_xfer_unknown_not_warned :
  known_tag 0x00 = false
  /\ iter_xfer_logged [0x10; 0x00; 0x20] =
       ([], [(Event.START, None, false); (Event.STOP, None, false)]).
Proof. split; reflexivity. Qed.

(** ** The address filter *)

Lemma is_filtered_cons x0 rest include :
  is_filtered (x0 :: rest) include =
    if negb (Z.land x0 0xF0 =? Event.START) then
      ([Warn_not_start (Z.land x0 0xF0)], Return false)
    else if (length (x0 :: rest) <? 3)%nat then
      ([Warn_no_address (length (x0 :: rest))], Return false)
    else
      match nth_error (x0 :: rest) 2 with
      | None => ([], Raise IndexError)
      | Some x2 =>
        if (0 <? length include)%nat then
          ([], Return (negb (existsb (Z.eqb (to_7bit_address x2)) include)))
        else ([], Return false)
      end.
Proof. reflexivity. Qed.

(** On a transfer that is not empty [is_filtered] raises nothing. *)
Lemma is_filtered_returns xfer include :
  xfer <> [] -> exists b, snd (is_filtered xfer include) = Return b.
Proof.
  destruct xfer as [|x0 rest]; [congruence|]. intros _.
  rewrite is_filtered_cons.
  destruct (negb _); [eexists; reflexivity|].
  destruct rest as [|x1 [|x2 rest]]; try (eexists; reflexivity).
  simpl. destruct (0 <? length include)%nat; eexists; reflexivity.
Qed.

(** C5, as amended. With an empty allow-list [is_filtered] returns false,
    raising nothing, for every transfer that holds at least one byte,
    malformed ones included: a first byte that is not START-tagged, or
    fewer than three bytes. *)
Theorem is_filtered_empty_allow_list :
  forall xfer, xfer <> [] -> snd (is_filtered xfer []) = Return false.
Proof.
  intros [|x0 rest] Hne; [congruence|].
  rewrite is_filtered_cons.
  destruct (negb _); [reflexivity|].
  destruct rest as [|x1 [|x2 rest]]; reflexivity.
Qed.

Lemma is_filtered_empty_allow_list_witness :
  snd (is_filtered [0x40; 0x20] []) = Return false.
Proof.
  apply (is_filtered_empty_allow_list [0x40; 0x20]). discriminate.
Defined.

(** C5, as stated, fails on the empty byte sequence: [xfer[0]] raises
    [IndexError]. *)
Lemma is_filtered_empty_xfer_raises :
  is_filtered [] [] = ([], Raise IndexError).
Proof. reflexivity. Qed.

(** C6. For a transfer whose first byte is START-tagged and that holds at
    least three bytes, and an allow-list that is not empty, [is_filtered]
    returns true exactly when the third byte shifted right by one is not
    in the allow-list. *)
Theorem is_filtered_allow_list :
  forall xfer include x0 x2,
    nth_error xfer 0 = Some x0 ->
    Z.land x0 0xF0 = Event.START ->
    (3 <= length xfer)%nat ->
    nth_error xfer 2 = Some x2 ->
    include <> [] ->
    exists b,
      is_filtered xfer include = ([], Return b)
      /\ (b = true <-> ~ In (to_7bit_address x2) include).
Proof.
  intros xfer include x0 x2 H0 Hstart Hlen H2 Hinc.
  destruct xfer as [|y0 [|y1 [|y2 rest]]]; simpl in Hlen; try lia.
  simpl in H0, H2. injection H0 as ->. injection H2 as ->.
  rewrite is_filtered_cons, Hstart. simpl.
  destruct include as [|i include]; [congruence|]. cbn [length Nat.ltb Nat.leb].
  eexists; split; [reflexivity|].
  rewrite negb_true_iff, <- not_true_iff_false, existsb_exists.
  split; intros H.
  - intros Hin. apply H. exists (to_7bit_address x2). split; [assumption|apply Z.eqb_refl].
  - intros (a & Hin & Ha). apply Z.eqb_eq in Ha. subst a. auto.
Qed.

Lemma is_filtered_allow_list_witness :
  is_filtered [0x10; 0x30; 0xA2; 0x40; 0x20] [0x50] = ([], Return true)
  /\ is_filtered [0x10; 0x30; 0xA0; 0x40; 0x20] [0x50] = ([], Return false).
Proof.
  split.
  - destruct (is_filtered_allow_list [0x10; 0x30; 0xA2; 0x40; 0x20] [0x50]
                0x10 0xA2 eq_refl eq_refl) as (b & -> & Hb);
      [simpl; lia | reflexivity | discriminate |].
    f_equal. f_equal. apply Hb. vm_compute. intros [H|[]]; discriminate.
  - destruct (is_filtered_allow_list [0x10; 0x30; 0xA0; 0x40; 0x20] [0x50]
                0x10 0xA0 eq_refl eq_refl) as (b & -> & Hb);
      [simpl; lia | reflexivity | discriminate |].
    f_equal. f_equal. destruct b; [|reflexivity].
    exfalso. apply (proj1 Hb eq_refl). vm_compute. auto.
Defined.

(** ** The transaction reader *)

Lemma read_byte_got src t value rest :
  read_byte src t = Got value rest ->
  exists a, src = a :: rest /\ arrival_byte a = value.
Proof.
  destruct src as [|[b|b] src], t; simpl; intros H; inversion H; subst;
    eexists; split; reflexivity.
Qed.

Lemma known_tag_intro value event :
  Z.land value 0xF0 = event ->
  In event [Event.START; Event.BYTE; Event.ACK; Event.STOP] ->
  known_tag value = true.
Proof.
  unfold known_tag; cbv zeta. intros -> [<-|[<-|[<-|[<-|[]]]]]; reflexivity.
Qed.

(** A pass that continues has consumed one byte and dropped it for its
    unknown tag, or has consumed a recognised token and appended it. *)
Lemma loop_body_continue st st1 :
  loop_body st = Continue st1 ->
  exists a taken kept,
    iface st = a :: taken ++ iface st1
    /\ events st1 = events st ++ kept
    /\ ((kept = [] /\ taken = [] /\ known_tag (arrival_byte a) = false)
        \/ (exists more, kept = arrival_byte a :: more
                         /\ known_tag (arrival_byte a) = true)).
Proof.
  unfold loop_body.
  destruct (read_byte (iface st) (timeout st)) as [value iface1| |] eqn:Hread;
    try discriminate.
  destruct (read_byte_got _ _ _ _ Hread) as (a & Ha & Hv). cbv zeta.
  destruct (Z.land value 0xF0 =? Event.START) eqn:Hstart.
  { apply Z.eqb_eq in Hstart. intros H; inversion H; subst; simpl.
    exists a, [], [arrival_byte a]. repeat split; auto.
    right. eexists; split; [reflexivity|].
    eapply known_tag_intro; [eassumption|simpl; auto]. }
  destruct (Z.land value 0xF0 =? Event.BYTE) eqn:Hbyte.
  { apply Z.eqb_eq in Hbyte.
    destruct (read_byte iface1 (Some stall_deadline)) as [data iface2| |] eqn:Hread2;
      try discriminate.
    destruct (read_byte_got _ _ _ _ Hread2) as (a2 & Ha2 & Hv2).
    intros H; inversion H; subst; simpl.
    exists a, [a2], [arrival_byte a; arrival_byte a2]. repeat split; auto.
    - now rewrite <- app_assoc.
    - right. eexists; split; [reflexivity|].
      eapply known_tag_intro; [eassumption|simpl; auto]. }
  destruct (Z.land value 0xF0 =? Event.ACK) eqn:Hack.
  { apply Z.eqb_eq in Hack. intros H; inversion H; subst; simpl.
    exists a, [], [arrival_byte a]. repeat split; auto.
    right. eexists; split; [reflexivity|].
    eapply known_tag_intro; [eassumption|simpl; auto]. }
  destruct (Z.land value 0xF0 =? Event.STOP) eqn:Hstop; try discriminate.
  intros H; inversion H; subst; simpl.
  exists a, [], []. repeat split; auto.
  - now rewrite app_nil_r.
  - left. repeat split. unfold known_tag; cbv zeta.
    now rewrite Hstart, Hbyte, Hack, Hstop.
Qed.

(** A pass that returns has just read a STOP byte and appended it. *)
Lemma loop_body_returned st xfer rest w :
  loop_body st = Finish (Returned xfer) rest w ->
  exists a,
    iface st = a :: rest
    /\ xfer = events st ++ [arrival_byte a]
    /\ Z.land (arrival_byte a) 0xF0 = Event.STOP.
Proof.
  unfold loop_body.
  destruct (read_byte (iface st) (timeout st)) as [value iface1| |] eqn:Hread;
    try discriminate.
  destruct (read_byte_got _ _ _ _ Hread) as (a & Ha & Hv). cbv zeta.
  destruct (Z.land value 0xF0 =? Event.START); try discriminate.
  destruct (Z.land value 0xF0 =? Event.BYTE).
  { destruct (read_byte iface1 (Some stall_deadline)); discriminate. }
  destruct (Z.land value 0xF0 =? Event.ACK); try discriminate.
  destruct (Z.land value 0xF0 =? Event.STOP) eqn:Hstop; try discriminate.
  apply Z.eqb_eq in Hstop.
  intros H; inversion H; subst. exists a; auto.
Qed.

(** A pass that times out hands over the events appended so far: those it
    started with, and the opcode byte when the stall is in a BYTE token. *)
Lemma loop_body_timed_out st xfer rest w :
  loop_body st = Finish (XferTimeoutError xfer) rest w ->
  xfer = events st
  \/ exists a, iface st = a :: rest
               /\ xfer = events st ++ [arrival_byte a]
               /\ Z.land (arrival_byte a) 0xF0 = Event.BYTE.
Proof.
  unfold loop_body.
  destruct (read_byte (iface st) (timeout st)) as [value iface1| |] eqn:Hread;
    try discriminate.
  2: { intros H; inversion H; auto. }
  destruct (read_byte_got _ _ _ _ Hread) as (a & Ha & Hv). cbv zeta.
  destruct (Z.land value 0xF0 =? Event.START); try discriminate.
  destruct (Z.land value 0xF0 =? Event.BYTE) eqn:Hbyte.
  { apply Z.eqb_eq in Hbyte.
    destruct (read_byte iface1 (Some stall_deadline)); try discriminate.
    intros H; inversion H; subst. right. exists a; auto. }
  destruct (Z.land value 0xF0 =? Event.ACK); try discriminate.
  destruct (Z.land value 0xF0 =? Event.STOP); discriminate.
Qed.

Lemma loop_body_shrinks st st1 :
  loop_body st = Continue st1 ->
  (length (iface st1) < length (iface st))%nat.
Proof.
  intros H. destruct (loop_body_continue _ _ H) as (a & taken & kept & -> & _).
  simpl. rewrite length_app. lia.
Qed.

(** Fuel beyond the length of the source changes nothing. *)
Lemma read_loop_fuel fuel1 :
  forall fuel2 st,
    (length (iface st) < fuel1)%nat ->
    (length (iface st) < fuel2)%nat ->
    read_loop fuel1 st = read_loop fuel2 st.
Proof.
  induction fuel1 as [|fuel1 IH]; intros [|fuel2] st H1 H2; try lia.
  simpl. destruct (loop_body st) as [st1|] eqn:Hbody; [|reflexivity].
  apply loop_body_shrinks in Hbody. apply IH; lia.
Qed.

Lemma read_loop_total fuel :
  forall st, (length (iface st) < fuel)%nat -> read_loop fuel st <> None.
Proof.
  induction fuel as [|fuel IH]; intros st H; [lia|].
  simpl. destruct (loop_body st) as [st1|] eqn:Hbody; [|discriminate].
  apply loop_body_shrinks in Hbody. apply IH; lia.
Qed.

(** [read_xfer] is total: on every source it returns, raises, or is left
    waiting for a byte that never comes. *)
Lemma read_xfer_total src : read_xfer src <> None.
Proof. apply read_loop_total. simpl. lia. Qed.

Lemma reaches_read_loop st st1 :
  reaches st st1 ->
  read_loop (S (length (iface st))) st = read_loop (S (length (iface st1))) st1.
Proof.
  induction 1 as [st|st st1 st2 Hbody _ IH]; [reflexivity|].
  rewrite <- IH. simpl read_loop at 1. rewrite Hbody.
  apply loop_body_shrinks in Hbody. apply read_loop_fuel; lia.
Qed.

(** C3. When the loop of [read_xfer] reads a BYTE opcode and the byte after
    it does not arrive within the stall deadline, the call raises
    [XferTimeoutError] carrying the events appended before the opcode
    followed by the opcode byte, and nothing more; the source is left as
    it was after the opcode. *)
Theorem read_xfer_stall_in_data_byte :
  forall src st value rest,
    reaches (fresh src) st ->
    read_byte (iface st) (timeout st) = Got value rest ->
    Z.land value 0xF0 = Event.BYTE ->
    read_byte rest (Some stall_deadline) = TimeoutError ->
    read_xfer src = Some (XferTimeoutError (events st ++ [value]), rest, log st).
Proof.
  intros src st value rest Hreach Hread Hbyte Hstall.
  unfold read_xfer.
  change (length src) with (length (iface (fresh src))).
  rewrite (reaches_read_loop _ _ Hreach).
  simpl. unfold loop_body. rewrite Hread. cbv zeta.
  rewrite Hbyte, Hstall. reflexivity.
Qed.

Lemma read_xfer_stall_in_data_byte_witness :
  read_xfer [Prompt 0x10; Prompt 0x30; Late 0xA3; Prompt 0x20] =
    Some (XferTimeoutError ([0x10] ++ [0x30]), [Late 0xA3; Prompt 0x20], []).
Proof.
  apply (read_xfer_stall_in_data_byte
           [Prompt 0x10; Prompt 0x30; Late 0xA3; Prompt 0x20]
           (Reader [Prompt 0x30; Late 0xA3; Prompt 0x20] [0x10]
                   (Some stall_deadline) [])
           0x30 [Late 0xA3; Prompt 0x20]).
  - eapply reaches_next; [reflexivity|apply reaches_here].
  - reflexivity.
  - reflexivity.
  - reflexivity.
Defined.

(** What [read_xfer] hands over extends the events it started with. *)
Lemma read_loop_extends fuel :
  forall st xfer,
    handed_over (read_loop fuel st) = Some xfer ->
    exists more, xfer = events st ++ more.
Proof.
  induction fuel as [|fuel IH]; intros st xfer H; [discriminate|].
  simpl in H. destruct (loop_body st) as [st1|o rest w] eqn:Hbody.
  - destruct (IH _ _ H) as (more & ->).
    destruct (loop_body_continue _ _ Hbody) as (_ & _ & kept & _ & -> & _).
    exists (kept ++ more). now rewrite app_assoc.
  - destruct o as [ev|ev|]; simpl in H; inversion H; subst.
    + destruct (loop_body_returned _ _ _ _ Hbody) as (a & _ & -> & _). eauto.
    + destruct (loop_body_timed_out _ _ _ _ Hbody) as [->|(a & _ & -> & _)].
      * exists []. now rewrite app_nil_r.
      * eauto.
Qed.

Lemma read_loop_head fuel :
  forall st xfer,
    events st = [] ->
    handed_over (read_loop fuel st) = Some xfer ->
    xfer <> [] ->
    exists skipped a rest more,
      iface st = skipped ++ a :: rest
      /\ forallb (fun a => negb (known_tag (arrival_byte a))) skipped = true
      /\ known_tag (arrival_byte a) = true
      /\ xfer = arrival_byte a :: more.
Proof.
  induction fuel as [|fuel IH]; intros st xfer Hnil H Hne; [discriminate|].
  simpl in H. destruct (loop_body st) as [st1|o rest w] eqn:Hbody.
  - destruct (loop_body_continue _ _ Hbody)
      as (a & taken & kept & Hsrc & Hev & [(-> & -> & Hunk)|(more & -> & Hk)]).
    + rewrite Hnil in Hev. simpl in Hev, Hsrc.
      destruct (IH _ _ Hev H Hne)
        as (skipped & a' & rest' & more & Hs & Hf & Hk & ->).
      exists (a :: skipped), a', rest', more. repeat split; auto.
      * now rewrite Hsrc, Hs.
      * simpl. now rewrite Hunk.
    + destruct (read_loop_extends _ _ _ H) as (more' & ->).
      rewrite Hev, Hnil. simpl.
      exists [], a, (taken ++ iface st1), (more ++ more'). auto.
  - destruct o as [ev|ev|]; simpl in H; inversion H; subst.
    + destruct (loop_body_returned _ _ _ _ Hbody) as (a & Hsrc & -> & Hstop).
      rewrite Hnil. exists [], a, rest, []. repeat split; auto.
      eapply known_tag_intro; [eassumption|simpl; auto].
    + destruct (loop_body_timed_out _ _ _ _ Hbody) as [->|(a & Hsrc & -> & Hb)].
      * congruence.
      * rewrite Hnil. exists [], a, rest, []. repeat split; auto.
        eapply known_tag_intro; [eassumption|simpl; auto].
Qed.

(** C7, as amended. A transfer that [read_xfer] returns, or hands over
    with its timeout when it holds at least one byte, begins with the first
    byte read in that call whose tag is START, BYTE, ACK or STOP: only the
    bytes with an unknown tag read before it are left out.  It begins with
    a START-tagged byte when that first recognised byte is a START. *)
Theorem read_xfer_begins_with_first_known :
  forall src xfer,
    handed_over (read_xfer src) = Some xfer ->
    xfer <> [] ->
    exists skipped a rest more,
      src = skipped ++ a :: rest
      /\ forallb (fun a => negb (known_tag (arrival_byte a))) skipped = true
      /\ known_tag (arrival_byte a) = true
      /\ xfer = arrival_byte a :: more.
Proof.
  intros src xfer H Hne.
  apply (read_loop_head (S (length src)) (fresh src) xfer eq_refl H Hne).
Qed.

Lemma read_xfer_begins_with_first_known_witness :
  exists skipped a rest more,
    [Prompt 0x00; Prompt 0x40; Prompt 0x10; Prompt 0x20] = skipped ++ a :: rest
    /\ forallb (fun a => negb (known_tag (arrival_byte a))) skipped = true
    /\ known_tag (arrival_byte a) = true
    /\ [0x40; 0x10; 0x20] = arrival_byte a :: more.
Proof.
  apply (read_xfer_begins_with_first_known
           [Prompt 0x00; Prompt 0x40; Prompt 0x10; Prompt 0x20]
           [0x40; 0x10; 0x20]).
  - reflexivity.
  - discriminate.
Defined.

(** C7, as stated, fails: an ACK byte that arrives before any START opens
    the transfer, which is returned at the STOP without a START at its
    head. *)
Lemma read_xfer_begins_without_start :
  read_xfer [Prompt 0x40; Prompt 0x20] = Some (Returned [0x40; 0x20], [], [])
  /\ Z.land 0x40 0xF0 = Event.ACK
  /\ Z.land 0x40 0xF0 <> Event.START.
Proof. repeat split. discriminate. Qed.

Lemma read_loop_returned fuel :
  forall st xfer rest w,
    read_loop fuel st = Some (Returned xfer, rest, w) ->
    exists pre a consumed,
      xfer = events st ++ pre ++ [arrival_byte a]
      /\ Z.land (arrival_byte a) 0xF0 = Event.STOP
      /\ iface st = consumed ++ a :: rest.
Proof.
  induction fuel as [|fuel IH]; intros st xfer rest w H; [discriminate|].
  simpl in H. destruct (loop_body st) as [st1|o rest1 w1] eqn:Hbody.
  - destruct (IH _ _ _ _ H) as (pre & a & consumed & -> & Hstop & Hsrc).
    destruct (loop_body_continue _ _ Hbody)
      as (a0 & taken & kept & Hsrc0 & -> & _).
    exists (kept ++ pre), a, (a0 :: taken ++ consumed). repeat split; auto.
    + now rewrite <- !app_assoc.
    + rewrite Hsrc0, Hsrc. simpl. now rewrite <- app_assoc.
  - inversion H; subst.
    destruct (loop_body_returned _ _ _ _ Hbody) as (a & Hsrc & -> & Hstop).
    exists [], a, []. auto.
Qed.

(** C10. A transfer that [read_xfer] returns is not empty and ends with a
    STOP-tagged byte, the byte read last: the source that remains is what
    follows it.  So [xfer[0]] exists and [is_filtered] raises nothing on
    it. *)
Theorem read_xfer_returns_on_stop :
  forall src xfer rest w,
    read_xfer src = Some (Returned xfer, rest, w) ->
    exists pre a consumed,
      xfer = pre ++ [arrival_byte a]
      /\ Z.land (arrival_byte a) 0xF0 = Event.STOP
      /\ src = consumed ++ a :: rest
      /\ xfer <> []
      /\ nth_error xfer 0 <> None
      /\ forall trace_i2c, exists b, snd (is_filtered xfer trace_i2c) = Return b.
Proof.
  intros src xfer rest w H.
  destruct (read_loop_returned _ _ _ _ _ H) as (pre & a & consumed & Hx & Hstop & Hsrc).
  simpl in Hx, Hsrc.
  assert (Hne : xfer <> []) by (subst xfer; destruct pre; discriminate).
  exists pre, a, consumed. repeat split; auto.
  - destruct xfer; [congruence|discriminate].
  - intros trace_i2c. now apply is_filtered_returns.
Qed.

Lemma read_xfer_returns_on_stop_witness :
  exists pre a consumed,
    [0x10; 0x30; 0xA0; 0x40; 0x20] = pre ++ [arrival_byte a]
    /\ Z.land (arrival_byte a) 0xF0 = Event.STOP
    /\ [Prompt 0x10; Prompt 0x30; Prompt 0xA0; Prompt 0x40; Prompt 0x20;
        Prompt 0x10] = consumed ++ a :: [Prompt 0x10]
    /\ [0x10; 0x30; 0xA0; 0x40; 0x20] <> []
    /\ nth_error [0x10; 0x30; 0xA0; 0x40; 0x20] 0 <> None
    /\ forall trace_i2c,
        exists b,
          snd (is_filtered [0x10; 0x30; 0xA0; 0x40; 0x20] trace_i2c) = Return b.
Proof.
  apply (read_xfer_returns_on_stop
           [Prompt 0x10; Prompt 0x30; Prompt 0xA0; Prompt 0x40; Prompt 0x20;
            Prompt 0x10]
           [0x10; 0x30; 0xA0; 0x40; 0x20] [Prompt 0x10] []).
  reflexivity.
Defined.

(** ** The trace formatter and the processing loop *)

Lemma print_loop_cons event data is_address ys counter :
  print_loop ((event, data, is_address) :: ys) counter =
    if (event =? Event.START) && negb is_address then
      (Print_START (counter + 1) :: fst (print_loop ys (counter + 1)),
       snd (print_loop ys (counter + 1)))
    else if (event =? Event.BYTE) && is_address then
      match data with
      | None => ([], Raise TypeError)
      | Some data =>
        (Print_op (is_read data) :: Print_addr (to_7bit_address data)
           :: fst (print_loop ys counter),
         snd (print_loop ys counter))
      end
    else if (event =? Event.BYTE) && negb is_address then
      match data with
      | None => ([], Raise TypeError)
      | Some data =>
        (Print_data data :: fst (print_loop ys counter),
         snd (print_loop ys counter))
      end
    else if (event =? Event.ACK) && negb is_address then
      match data with
      | None => ([], Raise TypeError)
      | Some data =>
        (Print_ack (is_ack data) :: fst (print_loop ys counter),
         snd (print_loop ys counter))
      end
    else if (event =? Event.STOP) && negb is_address then
      (Print_STOP :: fst (print_loop ys counter), snd (print_loop ys counter))
    else
      print_loop ys counter.
Proof.
  simpl.
  repeat match goal with
         | |- context [if ?c then _ else _] => destruct c
         | |- context [match ?d with Some _ => _ | None => _ end] => destruct d
         | |- context [print_loop ?ys ?c] => destruct (print_loop ys c)
         end; reflexivity.
Qed.

(** A transfer that ends on a BYTE opcode, its data byte missing, makes
    [print_xfer] raise [TypeError], whatever comes before the opcode. *)
Lemma event_position_cons e rest :
  event_position (e :: rest) =
    if Z.land e 0xF0 =? Event.BYTE then
      match rest with
      | [] => false
      | _ :: rest => event_position rest
      end
    else event_position rest.
Proof. reflexivity. Qed.

Lemma print_loop_dangling_opcode xfer :
  event_position xfer = false ->
  forall flag counter,
    snd (print_loop (iter_loop flag xfer) counter) = Raise TypeError.
Proof.
  induction xfer as [|e rest IH1 IH2] using token_ind;
    intros Hpos flag counter; [discriminate|].
  rewrite event_position_cons in Hpos. tag_cases e.
  - rewrite Hstart in Hpos. rewrite print_loop_cons. simpl. auto.
  - destruct rest as [|d rest]; rewrite print_loop_cons; simpl.
    + destruct flag; reflexivity.
    + destruct flag; simpl; apply IH2; assumption.
  - rewrite print_loop_cons. simpl. auto.
  - rewrite print_loop_cons. simpl. auto.
  - auto.
Qed.

Lemma print_xfer_dangling_opcode xfer counter :
  event_position xfer = false ->
  snd (print_xfer xfer counter) = Raise TypeError.
Proof. intros H. now apply print_loop_dangling_opcode. Qed.

Lemma loop_body_finish st o rest w :
  loop_body st = Finish o rest w ->
  (length rest <= length (iface st))%nat
  /\ (o <> Blocked -> timeout st = None ->
      (length rest < length (iface st))%nat).
Proof.
  unfold loop_body.
  destruct (read_byte (iface st) (timeout st)) as [value iface1| |] eqn:Hread.
  - destruct (read_byte_got _ _ _ _ Hread) as (a & -> & _). cbv zeta.
    destruct (Z.land value 0xF0 =? Event.START); try discriminate.
    destruct (Z.land value 0xF0 =? Event.BYTE).
    { destruct (read_byte iface1 (Some stall_deadline)); try discriminate;
        intros H; inversion H; subst; simpl; split; intros; lia. }
    destruct (Z.land value 0xF0 =? Event.ACK); try discriminate.
    destruct (Z.land value 0xF0 =? Event.STOP); try discriminate.
    intros H; inversion H; subst; simpl; split; intros; lia.
  - intros H; inversion H; subst. split; [lia|].
    intros _ Hnone. rewrite Hnone in Hread.
    destruct (iface st) as [|[b|b] src]; discriminate.
  - intros H; inversion H; subst. split; [lia|congruence].
Qed.

Lemma read_loop_keeps_suffix fuel :
  forall st o rest w,
    read_loop fuel st = Some (o, rest, w) ->
    (length rest <= length (iface st))%nat.
Proof.
  induction fuel as [|fuel IH]; intros st o rest w H; [discriminate|].
  simpl in H. destruct (loop_body st) as [st1|o1 rest1 w1] eqn:Hbody.
  - apply IH in H. apply loop_body_shrinks in Hbody. lia.
  - inversion H; subst. now apply loop_body_finish in Hbody.
Qed.

(** A call of [read_xfer] that returns or raises has consumed a byte. *)
Lemma read_xfer_consumes src o rest w :
  read_xfer src = Some (o, rest, w) ->
  o <> Blocked ->
  (length rest < length src)%nat.
Proof.
  unfold read_xfer. simpl read_loop.
  destruct (loop_body (fresh src)) as [st1|o1 rest1 w1] eqn:Hbody; intros H Ho.
  - apply read_loop_keeps_suffix in H. apply loop_body_shrinks in Hbody.
    simpl in Hbody. lia.
  - inversion H; subst. apply loop_body_finish in Hbody. simpl in Hbody.
    now apply Hbody.
Qed.

Lemma then_some w out k : k <> None -> then_ w out k <> None.
Proof. destruct k as [[[w' out'] o]|]; [discriminate|congruence]. Qed.

Lemma interact_loop_total fuel :
  forall src trace_i2c counter,
    (length src < fuel)%nat ->
    interact_loop fuel src trace_i2c counter <> None.
Proof.
  induction fuel as [|fuel IH]; intros src trace_i2c counter Hlen; [lia|].
  simpl.
  destruct (read_xfer src) as [[[o rest] w]|] eqn:Hread;
    [|now apply read_xfer_total in Hread].
  destruct o as [xfer|xfer|]; [| |discriminate].
  - apply read_xfer_consumes in Hread; [|discriminate].
    destruct (is_filtered xfer trace_i2c) as [w1 [[|]|e]]; [| |discriminate].
    + apply then_some, IH. lia.
    + destruct (print_xfer xfer counter) as [out [c|e]]; [|discriminate].
      apply then_some, IH. lia.
  - apply read_xfer_consumes in Hread; [|discriminate].
    destruct (print_xfer xfer counter) as [out [c|e]]; [|discriminate].
    apply then_some, IH. lia.
Qed.

(** [interact] is total on a source that delivers finitely many bytes: it
    ends waiting for the next byte, or with an exception. *)
Lemma interact_total src trace_i2c : interact src trace_i2c <> None.
Proof. apply interact_loop_total. lia. Qed.

(** C4 fails on the code. The source delivers START and a BYTE opcode and
    then stalls: [read_xfer] raises its timeout with [0x10, 0x30],
    [iter_xfer] yields the BYTE with [None] for its data, and [print_xfer]
    raises [TypeError] after the START, which ends [interact]. *)
Theorem print_xfer_partial_raises :
  read_xfer [Prompt 0x10; Prompt 0x30] =
    Some (XferTimeoutError [0x10; 0x30], [], [])
  /\ iter_xfer [0x10; 0x30] =
       [(Event.START, None, false); (Event.BYTE, None, true)]
  /\ print_xfer [0x10; 0x30] 0 = ([Print_START 1], Raise TypeError)
  /\ interact [Prompt 0x10; Prompt 0x30] [] =
       Some ([Warn_time_out], [Print_START 1], Crashed TypeError).
Proof. repeat split; reflexivity. Qed.

(** C8 fails on the code. The source delivers a START, stalls, then
    delivers START and STOP.  The partial transfer is printed with counter
    1 by the timeout handler, which drops the counter [print_xfer]
    returns; the next transfer is printed with counter 1 again. *)
Theorem interact_counter_repeats :
  interact [Prompt 0x10; Late 0x10; Prompt 0x20] [] =
    Some ([Warn_time_out; Warn_no_address 2],
          [Print_START 1; Print_START 1; Print_STOP],
          Waiting 1)
  /\ counters [Print_START 1; Print_START 1; Print_STOP] = [1; 1].
Proof. split; reflexivity. Qed.

(** * Further properties *)

(** ** The wire codec *)

(** A property checked on each of the 256 byte values holds of every
    byte. *)
Lemma byte_cases (P : Z -> bool) :
  forallb P (map Z.of_nat (seq 0 256)) = true ->
  forall v, 0 <= v < 256 -> P v = true.
Proof.
  intros H v Hv. rewrite forallb_forall in H. apply H.
  apply in_map_iff. exists (Z.to_nat v). split; [lia|].
  apply in_seq. lia.
Qed.

Lemma land_low_nibble value : Z.land value 0x0F = value mod 16.
Proof. exact (Z.land_ones value 4 ltac:(lia)). Qed.

Lemma land_bit0 value : Z.land value 0x1 = value mod 2.
Proof. exact (Z.land_ones value 1 ltac:(lia)). Qed.

(** [decode_event] loses nothing of a byte: the two halves add up to it,
    the event is a multiple of 16 up to [0xF0] and the data is below 16. *)
Theorem decode_event_splits_byte :
  forall value, 0 <= value < 256 ->
    fst (decode_event value) + snd (decode_event value) = value
    /\ fst (decode_event value) mod 16 = 0
    /\ 0 <= fst (decode_event value) <= 0xF0
    /\ 0 <= snd (decode_event value) < 16.
Proof.
  intros value Hv.
  pose proof (byte_cases
    (fun v => (fst (decode_event v) + snd (decode_event v) =? v)
              && (fst (decode_event v) mod 16 =? 0)
              && (0 <=? fst (decode_event v))
              && (fst (decode_event v) <=? 0xF0)
              && (0 <=? snd (decode_event v))
              && (snd (decode_event v) <? 16))
    ltac:(vm_compute; reflexivity) value Hv) as H.
  cbv beta in H.
  repeat (apply andb_prop in H; destruct H as [H ?]).
  repeat match goal with
         | E : (_ =? _) = true |- _ => apply Z.eqb_eq in E
         | E : (_ <=? _) = true |- _ => apply Z.leb_le in E
         | E : (_ <? _) = true |- _ => apply Z.ltb_lt in E
         end.
  repeat split; assumption.
Qed.

Lemma decode_event_splits_byte_witness :
  fst (decode_event 0x41) + snd (decode_event 0x41) = 0x41
  /\ fst (decode_event 0x41) mod 16 = 0
  /\ 0 <= fst (decode_event 0x41) <= 0xF0
  /\ 0 <= snd (decode_event 0x41) < 16.
Proof. apply (decode_event_splits_byte 0x41). lia. Defined.

(** The address byte is its 7-bit address doubled plus its read bit, for
    every integer; so [to_7bit_address] and [is_read] together lose
    nothing. *)
Theorem address_byte_round_trip :
  forall address,
    2 * to_7bit_address address + Z.b2z (is_read address) = address.
Proof.
  intros address. unfold to_7bit_address, is_read.
  rewrite land_bit0, Z.shiftr_div_pow2 by lia.
  change (2 ^ 0x1) with 2.
  pose proof (Z.div_mod address 2 ltac:(lia)) as Hdm.
  pose proof (Z.mod_pos_bound address 2 ltac:(lia)) as Hb.
  destruct (address mod 2 =? 1) eqn:E; cbn [Z.b2z].
  - apply Z.eqb_eq in E. lia.
  - apply Z.eqb_neq in E. lia.
Qed.

(** The 7-bit address of a byte is below 128, and [is_ack] is the
    opposite of the low bit that [is_read] tests. *)
Theorem to_7bit_address_range :
  forall address, 0 <= address < 256 ->
    0 <= to_7bit_address address < 128
    /\ is_ack address = negb (is_read address).
Proof.
  intros address H. split; [|reflexivity].
  unfold to_7bit_address. rewrite Z.shiftr_div_pow2 by lia.
  change (2 ^ 0x1) with 2.
  split; [apply Z.div_pos; lia | apply Z.div_lt_upper_bound; lia].
Qed.

Lemma to_7bit_address_range_witness :
  0 <= to_7bit_address 0xA3 < 128
  /\ is_ack 0xA3 = negb (is_read 0xA3).
Proof. apply (to_7bit_address_range 0xA3). lia. Defined.

(** ** The address filter, further *)

Lemma Return_inj {A} (a b : A) : Return a = Return b -> a = b.
Proof. intros H. now injection H. Qed.

(** [is_filtered] suppresses a transfer only when it begins with a START
    byte, holds at least three bytes, and the allow-list is not empty and
    lacks the 7-bit address of the third byte; and in that case it does.
    A malformed transfer is never suppressed. *)
Theorem is_filtered_true_iff :
  forall xfer trace_i2c,
    snd (is_filtered xfer trace_i2c) = Return true <->
    exists x0 x2,
      nth_error xfer 0 = Some x0
      /\ Z.land x0 0xF0 = Event.START
      /\ nth_error xfer 2 = Some x2
      /\ trace_i2c <> []
      /\ ~ In (to_7bit_address x2) trace_i2c.
Proof.
  intros xfer trace_i2c. split.
  - destruct xfer as [|x0 rest]; [discriminate|].
    rewrite is_filtered_cons.
    destruct (Z.land x0 0xF0 =? Event.START) eqn:Hstart; [|discriminate].
    apply Z.eqb_eq in Hstart.
    destruct rest as [|x1 [|x2 rest]]; try discriminate.
    destruct trace_i2c as [|i include]; [discriminate|].
    cbn [negb length Nat.ltb Nat.leb nth_error snd].
    intros H. apply Return_inj in H.
    exists x0, x2. repeat split; auto; [discriminate|].
    intros Hin. apply negb_true_iff, not_true_iff_false in H. apply H.
    apply existsb_exists. exists (to_7bit_address x2).
    split; [assumption|apply Z.eqb_refl].
  - intros (x0 & x2 & H0 & Hstart & H2 & Hne & Hnot).
    destruct xfer as [|y0 [|y1 [|y2 rest]]]; try discriminate.
    simpl in H0, H2. injection H0 as ->. injection H2 as ->.
    rewrite is_filtered_cons, Hstart.
    destruct trace_i2c as [|i include]; [congruence|].
    cbn [negb length Nat.ltb Nat.leb nth_error snd Z.eqb Event.START Pos.eqb].
    f_equal.
    apply negb_true_iff, not_true_iff_false. intros H.
    apply existsb_exists in H. destruct H as (a & Hin & Ha).
    apply Z.eqb_eq in Ha. subst a. auto.
Qed.

(** Flipping the read/write bit of the address byte never changes the
    verdict of [is_filtered]: reads and writes of one device are filtered
    alike. *)
Theorem is_filtered_ignores_rw_bit :
  forall x0 x1 x2 rest trace_i2c,
    is_filtered (x0 :: x1 :: Z.lxor x2 0x1 :: rest) trace_i2c =
    is_filtered (x0 :: x1 :: x2 :: rest) trace_i2c.
Proof.
  intros x0 x1 x2 rest trace_i2c.
  rewrite !is_filtered_cons. cbn [nth_error length].
  replace (to_7bit_address (Z.lxor x2 0x1)) with (to_7bit_address x2);
    [reflexivity|].
  unfold to_7bit_address. rewrite Z.shiftr_lxor.
  change (Z.shiftr 0x1 0x1) with 0. now rewrite Z.lxor_0_r.
Qed.

(** ** The decoder, further *)

Lemma land_low_nibble_range value : 0 <= Z.land value 0x0F < 16.
Proof. rewrite land_low_nibble. apply Z.mod_pos_bound. lia. Qed.

Lemma iter_loop_well_shaped xfer :
  forall flag, Forall well_shaped (iter_loop flag xfer).
Proof.
  induction xfer as [|e rest IH1 IH2] using token_ind; intros flag.
  - constructor.
  - tag_cases e.
    + constructor; [left; reflexivity|apply IH1].
    + destruct rest as [|d rest]; constructor;
        try (right; right; right; eexists; eexists; reflexivity);
        [constructor|apply IH2].
    + constructor; [|apply IH1].
      right; right; left. eexists; split; [reflexivity|].
      apply land_low_nibble_range.
    + constructor; [right; left; reflexivity|apply IH1].
    + apply IH1.
Qed.

(** Every tuple [iter_xfer] yields has one of the five shapes the [match]
    of [print_xfer] handles: START, STOP and ACK are never flagged as the
    address, START and STOP carry no data, and the data of an ACK is below
    16. *)
Theorem iter_xfer_well_shaped :
  forall xfer, Forall well_shaped (iter_xfer xfer).
Proof. intros xfer. apply iter_loop_well_shaped. Qed.

Lemma iter_loop_missing_data xfer :
  forall flag pre is_address post,
    iter_loop flag xfer = pre ++ (Event.BYTE, None, is_address) :: post ->
    post = [] /\ event_position xfer = false.
Proof.
  induction xfer as [|e rest IH1 IH2] using token_ind;
    intros flag pre is_address post Heq.
  - destruct pre; discriminate.
  - rewrite event_position_cons. revert Heq. tag_cases e; intros Heq.
    + destruct pre as [|p pre]; simpl in Heq; inversion Heq; subst.
      eapply IH1; eauto.
    + destruct rest as [|d rest].
      * destruct pre as [|p [|q pre]]; simpl in Heq; inversion Heq; subst.
        auto.
      * destruct pre as [|p pre]; simpl in Heq; inversion Heq; subst.
        eapply IH2; eauto.
    + destruct pre as [|p pre]; simpl in Heq; inversion Heq; subst.
      eapply IH1; eauto.
    + destruct pre as [|p pre]; simpl in Heq; inversion Heq; subst.
      eapply IH1; eauto.
    + eapply IH1; eauto.
Qed.

(** A BYTE tuple without data is only ever the last tuple [iter_xfer]
    yields, and only for a sequence that ends on a BYTE opcode. *)
Theorem iter_xfer_missing_data_is_last :
  forall xfer pre is_address post,
    iter_xfer xfer = pre ++ (Event.BYTE, None, is_address) :: post ->
    post = [] /\ event_position xfer = false.
Proof. intros xfer. apply iter_loop_missing_data. Qed.

Lemma iter_xfer_missing_data_is_last_witness :
  @nil yielded = [] /\ event_position [0x10; 0x30] = false.
Proof.
  apply (iter_xfer_missing_data_is_last [0x10; 0x30]
           [(Event.START, None, false)] true []).
  reflexivity.
Defined.

Lemma iter_loop_app pre post :
  event_position pre = true ->
  forall flag,
    iter_loop flag (pre ++ post) =
    iter_loop flag pre ++ iter_loop (flag_after flag (iter_loop flag pre)) post.
Proof.
  induction pre as [|e rest IH1 IH2] using token_ind; intros Hpos flag.
  - reflexivity.
  - rewrite event_position_cons in Hpos. cbn [app].
    rewrite !iter_loop_cons; cbv zeta.
    destruct (Z.land e 0xF0 =? Event.START) eqn:Hstart.
    { cbn [app flag_after is_start is_byte]. rewrite Hstart.
      apply Z.eqb_eq in Hstart. rewrite Hstart in Hpos. simpl in Hpos.
      apply f_equal. apply IH1. exact Hpos. }
    destruct (Z.land e 0xF0 =? Event.BYTE) eqn:Hbyte.
    { destruct rest as [|d rest]; [discriminate|].
      cbn [app flag_after is_start is_byte]. rewrite Hstart, Hbyte.
      apply f_equal. apply IH2. exact Hpos. }
    destruct (Z.land e 0xF0 =? Event.ACK) eqn:Hack.
    { cbn [app flag_after is_start is_byte]. rewrite Hstart, Hbyte.
      apply f_equal. apply IH1. exact Hpos. }
    destruct (Z.land e 0xF0 =? Event.STOP) eqn:Hstop.
    { cbn [app flag_after is_start is_byte]. rewrite Hstart, Hbyte.
      apply f_equal. apply IH1. exact Hpos. }
    apply IH1. exact Hpos.
Qed.

(** Decoding composes at a token boundary: the tuples of [pre ++ post]
    are those of [pre] followed by those of [post] decoded with the
    address flag that [pre] leaves behind. *)
Theorem iter_xfer_app :
  forall pre post,
    event_position pre = true ->
    iter_xfer (pre ++ post) =
    iter_xfer pre ++ iter_loop (flag_after false (iter_xfer pre)) post.
Proof. intros pre post H. now apply iter_loop_app. Qed.

Lemma iter_xfer_app_witness :
  iter_xfer ([0x10] ++ [0x30; 0xA3; 0x20]) =
  iter_xfer [0x10]
    ++ iter_loop (flag_after false (iter_xfer [0x10])) [0x30; 0xA3; 0x20].
Proof. apply (iter_xfer_app [0x10] [0x30; 0xA3; 0x20]). reflexivity. Defined.

(** ** The trace formatter, further *)

Lemma starts_cons y ys :
  starts (y :: ys) = if is_start y then S (starts ys) else starts ys.
Proof. unfold starts. simpl. now destruct (is_start y). Qed.

Lemma print_loop_returns xfer :
  event_position xfer = true ->
  forall flag counter,
    snd (print_loop (iter_loop flag xfer) counter) =
    Return (counter + Z.of_nat (starts (iter_loop flag xfer))).
Proof.
  induction xfer as [|e rest IH1 IH2] using token_ind;
    intros Hpos flag counter.
  - simpl. f_equal. unfold starts. simpl. lia.
  - rewrite event_position_cons in Hpos. tag_cases e.
    + rewrite Hstart in Hpos. rewrite print_loop_cons, starts_cons. simpl.
      rewrite IH1 by exact Hpos. f_equal. lia.
    + destruct rest as [|d rest]; [discriminate|].
      rewrite print_loop_cons, starts_cons.
      destruct flag; simpl; now rewrite IH2.
    + rewrite print_loop_cons, starts_cons. simpl. now rewrite IH1.
    + rewrite print_loop_cons, starts_cons. simpl. now rewrite IH1.
    + now apply IH1.
Qed.

(** On a transfer that does not end inside a BYTE token [print_xfer]
    raises nothing and returns the counter advanced by the number of START
    events of the transfer. *)
Theorem print_xfer_returns :
  forall xfer counter,
    event_position xfer = true ->
    snd (print_xfer xfer counter) =
    Return (counter + Z.of_nat (starts (iter_xfer xfer))).
Proof. intros xfer counter H. now apply print_loop_returns. Qed.

Lemma print_xfer_returns_witness :
  snd (print_xfer [0x10; 0x30; 0xA3; 0x40; 0x10; 0x30; 0xA2; 0x41; 0x20] 7) =
  Return (7 + Z.of_nat
                (starts (iter_xfer
                           [0x10; 0x30; 0xA3; 0x40; 0x10; 0x30; 0xA2; 0x41; 0x20]))).
Proof.
  apply (print_xfer_returns
           [0x10; 0x30; 0xA3; 0x40; 0x10; 0x30; 0xA2; 0x41; 0x20] 7).
  reflexivity.
Defined.

(** A transfer that ends on a BYTE opcode, its data byte missing, makes
    [print_xfer] raise [TypeError], whatever precedes the opcode and
    whatever the counter. *)
Theorem print_xfer_raises_on_missing_data :
  forall xfer counter,
    event_position xfer = false ->
    snd (print_xfer xfer counter) = Raise TypeError.
Proof. intros xfer counter H. now apply print_loop_dangling_opcode. Qed.

Lemma print_xfer_raises_on_missing_data_witness :
  snd (print_xfer [0x10; 0x30; 0xA3; 0x40; 0x30] 0) = Raise TypeError.
Proof.
  apply (print_xfer_raises_on_missing_data [0x10; 0x30; 0xA3; 0x40; 0x30] 0).
  reflexivity.
Defined.

Lemma counters_from_S first n :
  counters_from first (S n) = (first + 1) :: counters_from (first + 1) n.
Proof.
  unfold counters_from. cbn [seq map]. f_equal.
  rewrite <- (seq_shift n 1), map_map. apply map_ext. intros k. lia.
Qed.

Lemma print_loop_counters ys :
  forall counter,
    exists n,
      counters (fst (print_loop ys counter)) = counters_from counter n
      /\ forall counter',
           snd (print_loop ys counter) = Return counter' ->
           counter' = counter + Z.of_nat n.
Proof.
  induction ys as [|[[event data] is_address] ys IH]; intros counter.
  - exists O. split; [reflexivity|].
    intros c H. apply Return_inj in H. simpl. lia.
  - rewrite print_loop_cons.
    destruct ((event =? Event.START) && negb is_address).
    { destruct (IH (counter + 1)) as (n & Hc & Hr). exists (S n).
      rewrite counters_from_S. cbn [fst snd counters]. split; [now f_equal|].
      intros c H. rewrite (Hr c H). lia. }
    destruct ((event =? Event.BYTE) && is_address).
    { destruct data as [data|].
      - destruct (IH counter) as (n & Hc & Hr). exists n. split; assumption.
      - exists O. split; [reflexivity|discriminate]. }
    destruct ((event =? Event.BYTE) && negb is_address).
    { destruct data as [data|].
      - destruct (IH counter) as (n & Hc & Hr). exists n. split; assumption.
      - exists O. split; [reflexivity|discriminate]. }
    destruct ((event =? Event.ACK) && negb is_address).
    { destruct data as [data|].
      - destruct (IH counter) as (n & Hc & Hr). exists n. split; assumption.
      - exists O. split; [reflexivity|discriminate]. }
    destruct ((event =? Event.STOP) && negb is_address).
    { destruct (IH counter) as (n & Hc & Hr). exists n. split; assumption. }
    apply IH.
Qed.

(** Within one call, [print_xfer] displays the counters [counter + 1],
    [counter + 2], ... in order, one per START printed, without gap or
    repetition; when it returns, it returns the last one displayed (or
    [counter] itself when it displayed none). *)
Theorem print_xfer_counters_consecutive :
  forall xfer counter,
    exists n,
      counters (fst (print_xfer xfer counter)) = counters_from counter n
      /\ forall counter',
           snd (print_xfer xfer counter) = Return counter' ->
           counter' = counter + Z.of_nat n.
Proof. intros xfer counter. apply print_loop_counters. Qed.

(** ** The transaction reader, further *)

Lemma read_byte_deadline_not_pending src deadline :
  read_byte src (Some deadline) <> Pending.
Proof. destruct src as [|[b|b] src]; discriminate. Qed.

Lemma read_byte_pending src t :
  read_byte src t = Pending -> src = [] /\ t = None.
Proof. destruct src as [|[b|b] src], t; try discriminate; auto. Qed.

Lemma read_byte_timeout src t :
  read_byte src t = TimeoutError -> t <> None.
Proof. destruct src as [|[b|b] src], t; discriminate. Qed.

(** What a pass that continues has done, in full: it has dropped one byte
    with an unknown tag and logged it, or appended a START or ACK byte, or
    appended a BYTE opcode and the byte after it. *)
Lemma loop_body_continue_full st st1 :
  loop_body st = Continue st1 ->
  timeout st1 = Some stall_deadline
  /\ exists a,
      let v := arrival_byte a in
      (known_tag v = false /\ iface st = a :: iface st1
       /\ events st1 = events st
       /\ log st1 = log st ++ [Warn_unknown_event v])
      \/ (known_tag v = true /\ Z.land v 0xF0 <> Event.BYTE
          /\ Z.land v 0xF0 <> Event.STOP
          /\ iface st = a :: iface st1
          /\ events st1 = events st ++ [v]
          /\ log st1 = log st)
      \/ (Z.land v 0xF0 = Event.BYTE
          /\ exists a2,
              is_prompt a2 = true
              /\ iface st = a :: a2 :: iface st1
              /\ events st1 = events st ++ [v; arrival_byte a2]
              /\ log st1 = log st).
Proof.
  unfold loop_body.
  destruct (read_byte (iface st) (timeout st)) as [value iface1| |] eqn:Hread;
    try discriminate.
  destruct (read_byte_got _ _ _ _ Hread) as (a & Ha & Hv). cbv zeta.
  destruct (Z.land value 0xF0 =? Event.START) eqn:Hstart.
  { apply Z.eqb_eq in Hstart. intros H; inversion H; subst; simpl.
    split; [reflexivity|]. exists a. right; left.
    repeat split; auto; try (rewrite Hstart; discriminate).
    eapply known_tag_intro; [eassumption|simpl; auto]. }
  destruct (Z.land value 0xF0 =? Event.BYTE) eqn:Hbyte.
  { apply Z.eqb_eq in Hbyte.
    destruct (read_byte iface1 (Some stall_deadline)) as [data iface2| |] eqn:Hread2;
      try discriminate.
    destruct (read_byte_got _ _ _ _ Hread2) as (a2 & Ha2 & Hv2).
    intros H; inversion H; subst; simpl.
    split; [reflexivity|]. exists a. right; right.
    split; [assumption|]. exists a2. repeat split; auto.
    - destruct a2; [reflexivity|discriminate].
    - now rewrite <- app_assoc. }
  destruct (Z.land value 0xF0 =? Event.ACK) eqn:Hack.
  { apply Z.eqb_eq in Hack. intros H; inversion H; subst; simpl.
    split; [reflexivity|]. exists a. right; left.
    repeat split; auto; try (rewrite Hack; discriminate).
    eapply known_tag_intro; [eassumption|simpl; auto]. }
  destruct (Z.land value 0xF0 =? Event.STOP) eqn:Hstop; try discriminate.
  intros H; inversion H; subst; simpl.
  split; [reflexivity|]. exists a. left. repeat split; auto.
  unfold known_tag; cbv zeta. now rewrite Hstart, Hbyte, Hack, Hstop.
Qed.

(** What a pass that ends the call has done, in full. *)
Lemma loop_body_finish_full st o rest w :
  loop_body st = Finish o rest w ->
  w = log st
  /\ ((o = Blocked /\ rest = iface st /\ iface st = [] /\ timeout st = None)
      \/ (o = XferTimeoutError (events st) /\ rest = iface st
          /\ timeout st <> None)
      \/ (exists a, iface st = a :: rest
                    /\ Z.land (arrival_byte a) 0xF0 = Event.BYTE
                    /\ o = XferTimeoutError (events st ++ [arrival_byte a]))
      \/ (exists a, iface st = a :: rest
                    /\ Z.land (arrival_byte a) 0xF0 = Event.STOP
                    /\ o = Returned (events st ++ [arrival_byte a]))).
Proof.
  unfold loop_body.
  destruct (read_byte (iface st) (timeout st)) as [value iface1| |] eqn:Hread.
  - destruct (read_byte_got _ _ _ _ Hread) as (a & Ha & Hv). cbv zeta.
    destruct (Z.land value 0xF0 =? Event.START); try discriminate.
    destruct (Z.land value 0xF0 =? Event.BYTE) eqn:Hbyte.
    { apply Z.eqb_eq in Hbyte.
      destruct (read_byte iface1 (Some stall_deadline)) eqn:Hread2;
        try discriminate.
      - intros H; inversion H; subst. split; [reflexivity|].
        right; right; left. exists a; auto.
      - now apply read_byte_deadline_not_pending in Hread2. }
    destruct (Z.land value 0xF0 =? Event.ACK); try discriminate.
    destruct (Z.land value 0xF0 =? Event.STOP) eqn:Hstop; try discriminate.
    apply Z.eqb_eq in Hstop.
    intros H; inversion H; subst. split; [reflexivity|].
    right; right; right. exists a; auto.
  - intros H; inversion H; subst. split; [reflexivity|].
    right; left. repeat split. now apply read_byte_timeout in Hread.
  - intros H; inversion H; subst. split; [reflexivity|].
    left. apply read_byte_pending in Hread. destruct Hread as [-> ->]. auto.
Qed.

Lemma read_loop_blocked fuel :
  forall st rest w,
    read_loop fuel st = Some (Blocked, rest, w) ->
    iface st = [] /\ timeout st = None.
Proof.
  induction fuel as [|fuel IH]; intros st rest w H; [discriminate|].
  simpl in H. destruct (loop_body st) as [st1|o rest1 w1] eqn:Hbody.
  - apply IH in H. destruct H as [_ H].
    apply loop_body_continue_full in Hbody. destruct Hbody as [Ht _].
    congruence.
  - inversion H; subst.
    destruct (loop_body_finish_full _ _ _ _ Hbody)
      as (_ & [(_ & _ & ? & ?)|[(? & _)|[(a & _ & _ & ?)|(a & _ & _ & ?)]]]);
      try discriminate; auto.
Qed.


Lemma unknown_not_byte v :
  known_tag v = false -> (Z.land v 0xF0 =? Event.BYTE) = false.
Proof.
  unfold known_tag; cbv zeta. intros H.
  repeat (apply orb_false_elim in H; destruct H as [H ?]). assumption.
Qed.

Lemma kept_bytes_cons e rest :
  kept_bytes (e :: rest) =
    if Z.land e 0xF0 =? Event.BYTE then
      match rest with
      | [] => [e]
      | d :: rest => e :: d :: kept_bytes rest
      end
    else if known_tag e then e :: kept_bytes rest
    else kept_bytes rest.
Proof. reflexivity. Qed.

Lemma dropped_bytes_cons e rest :
  dropped_bytes (e :: rest) =
    if Z.land e 0xF0 =? Event.BYTE then
      match rest with
      | [] => []
      | _ :: rest => dropped_bytes rest
      end
    else if known_tag e then dropped_bytes rest
    else e :: dropped_bytes rest.
Proof. reflexivity. Qed.

Lemma kept_dropped_length bytes :
  (length (kept_bytes bytes) + length (dropped_bytes bytes) = length bytes)%nat.
Proof.
  induction bytes as [|e rest IH1 IH2] using token_ind; [reflexivity|].
  rewrite kept_bytes_cons, dropped_bytes_cons.
  destruct (Z.land e 0xF0 =? Event.BYTE).
  - destruct rest as [|d rest]; [reflexivity|]. simpl in *. lia.
  - destruct (known_tag e); simpl; lia.
Qed.

Lemma read_loop_accounts fuel :
  forall st o rest w,
    read_loop fuel st = Some (o, rest, w) ->
    exists consumed,
      iface st = consumed ++ rest
      /\ w = log st
             ++ map Warn_unknown_event (dropped_bytes (map arrival_byte consumed))
      /\ match o with
         | Returned xfer | XferTimeoutError xfer =>
           xfer = events st ++ kept_bytes (map arrival_byte consumed)
         | Blocked => consumed = []
         end.
Proof.
  induction fuel as [|fuel IH]; intros st o rest w H; [discriminate|].
  simpl in H. destruct (loop_body st) as [st1|o1 rest1 w1] eqn:Hbody.
  - destruct (IH _ _ _ _ H) as (consumed & Hsrc & Hw & Ho).
    assert (Hblk : o <> Blocked).
    { intros ->. apply read_loop_blocked in H.
      apply loop_body_continue_full in Hbody. destruct Hbody as [Ht _].
      destruct H as [_ H]. congruence. }
    destruct (loop_body_continue_full _ _ Hbody) as (_ & a & Hcase).
    cbv zeta in Hcase.
    destruct Hcase
      as [(Hunk & Hi & He & Hl)
         |[(Hk & Hnb & Hns & Hi & He & Hl)
          |(Hb & a2 & _ & Hi & He & Hl)]].
    + exists (a :: consumed). rewrite Hi, Hsrc. split; [reflexivity|].
      cbn [map]. rewrite kept_bytes_cons, dropped_bytes_cons.
      rewrite (unknown_not_byte _ Hunk), Hunk.
      split.
      * rewrite Hw, Hl, <- app_assoc. reflexivity.
      * destruct o; try congruence; rewrite Ho, He; reflexivity.
    + exists (a :: consumed). rewrite Hi, Hsrc. split; [reflexivity|].
      cbn [map]. rewrite kept_bytes_cons, dropped_bytes_cons.
      apply Z.eqb_neq in Hnb. rewrite Hnb, Hk.
      split.
      * rewrite Hw, Hl. reflexivity.
      * destruct o; try congruence; rewrite Ho, He, <- app_assoc; reflexivity.
    + exists (a :: a2 :: consumed). rewrite Hi, Hsrc. split; [reflexivity|].
      cbn [map]. rewrite kept_bytes_cons, dropped_bytes_cons.
      rewrite Hb. change (Event.BYTE =? Event.BYTE) with true. cbv iota.
      split.
      * rewrite Hw, Hl. reflexivity.
      * destruct o; try congruence; rewrite Ho, He, <- app_assoc; reflexivity.
  - inversion H; subst.
    destruct (loop_body_finish_full _ _ _ _ Hbody)
      as (-> & [(-> & -> & _ & _)
               |[(-> & -> & _)
                |[(a & Hi & Hb & ->)|(a & Hi & Hs & ->)]]]).
    + exists []. simpl. now rewrite app_nil_r.
    + exists []. simpl. now rewrite !app_nil_r.
    + exists [a]. rewrite Hi. split; [reflexivity|].
      cbn [map]. rewrite kept_bytes_cons, dropped_bytes_cons, Hb.
      change (Event.BYTE =? Event.BYTE) with true. cbv iota.
      simpl. now rewrite app_nil_r.
    + exists [a]. rewrite Hi. split; [reflexivity|].
      cbn [map]. rewrite kept_bytes_cons, dropped_bytes_cons, Hs.
      change (Event.STOP =? Event.BYTE) with false. cbv iota.
      rewrite (known_tag_intro _ _ Hs) by (simpl; auto).
      simpl. now rewrite app_nil_r.
Qed.

(** [read_xfer] accounts for every byte it consumes.  The bytes taken
    from the source are a prefix of it; the transfer handed over, returned
    or carried by the timeout, is that prefix without the bytes that have
    an unknown tag in event position, and the warnings logged are those
    bytes, in order.  No byte is lost and none is invented. *)
Theorem read_xfer_accounts_for_bytes :
  forall src o rest w,
    read_xfer src = Some (o, rest, w) ->
    exists consumed,
      src = consumed ++ rest
      /\ w = map Warn_unknown_event (dropped_bytes (map arrival_byte consumed))
      /\ (forall xfer, handed_over (read_xfer src) = Some xfer ->
            xfer = kept_bytes (map arrival_byte consumed)
            /\ (length xfer + length w = length consumed)%nat).
Proof.
  intros src o rest w H.
  destruct (read_loop_accounts _ _ _ _ _ H) as (consumed & Hsrc & Hw & Ho).
  simpl in Hsrc, Hw, Ho.
  exists consumed. repeat split; auto.
  - rewrite H in H0. destruct o; simpl in H0; try discriminate;
      injection H0 as <-; exact Ho.
  - rewrite H in H0.
    assert (xfer = kept_bytes (map arrival_byte consumed))
      by (destruct o; simpl in H0; try discriminate;
          injection H0 as <-; exact Ho).
    subst xfer w. rewrite length_map.
    rewrite kept_dropped_length. apply length_map.
Qed.

Lemma read_xfer_accounts_for_bytes_witness :
  exists consumed,
    [Late 0x00; Prompt 0x10; Prompt 0x30; Prompt 0x00; Prompt 0x50;
     Prompt 0x20; Prompt 0x10] = consumed ++ [Prompt 0x10]
    /\ [Warn_unknown_event 0x00; Warn_unknown_event 0x50] =
         map Warn_unknown_event (dropped_bytes (map arrival_byte consumed))
    /\ (forall xfer,
          handed_over
            (read_xfer [Late 0x00; Prompt 0x10; Prompt 0x30; Prompt 0x00;
                        Prompt 0x50; Prompt 0x20; Prompt 0x10]) = Some xfer ->
          xfer = kept_bytes (map arrival_byte consumed)
          /\ (length xfer
              + length [Warn_unknown_event 0x00; Warn_unknown_event 0x50]
              = length consumed)%nat).
Proof.
  apply (read_xfer_accounts_for_bytes
           [Late 0x00; Prompt 0x10; Prompt 0x30; Prompt 0x00; Prompt 0x50;
            Prompt 0x20; Prompt 0x10]
           (Returned [0x10; 0x30; 0x00; 0x20])).
  reflexivity.
Defined.

Lemma event_position_app xs ys :
  event_position xs = true ->
  event_position (xs ++ ys) = event_position ys.
Proof.
  induction xs as [|e rest IH1 IH2] using token_ind; intros H; [reflexivity|].
  rewrite event_position_cons in H. cbn [app]. rewrite event_position_cons.
  destruct (Z.land e 0xF0 =? Event.BYTE).
  - destruct rest as [|d rest]; [discriminate|]. now apply IH2.
  - now apply IH1.
Qed.

Lemma event_position_one v :
  Z.land v 0xF0 <> Event.BYTE -> event_position [v] = true.
Proof.
  intros H. rewrite event_position_cons.
  apply Z.eqb_neq in H. now rewrite H.
Qed.

(** The events [read_xfer] has appended never end inside a BYTE token at
    the top of its loop; so what it hands over ends inside one only when
    the timeout struck between an opcode and its data byte. *)
Lemma read_loop_event_position fuel :
  forall st o rest w,
    event_position (events st) = true ->
    read_loop fuel st = Some (o, rest, w) ->
    match o with
    | Returned xfer => event_position xfer = true
    | XferTimeoutError xfer =>
      event_position xfer = true
      \/ exists pre v, xfer = pre ++ [v] /\ Z.land v 0xF0 = Event.BYTE
                       /\ event_position xfer = false
    | Blocked => True
    end.
Proof.
  induction fuel as [|fuel IH]; intros st o rest w Hpos H; [discriminate|].
  simpl in H. destruct (loop_body st) as [st1|o1 rest1 w1] eqn:Hbody.
  - apply (IH st1 o rest w); [|exact H].
    destruct (loop_body_continue_full _ _ Hbody) as (_ & a & Hcase).
    cbv zeta in Hcase.
    destruct Hcase
      as [(_ & _ & He & _)
         |[(_ & Hnb & _ & _ & He & _)|(Hb & a2 & _ & _ & He & _)]];
      rewrite He; [assumption| |].
    + rewrite event_position_app by assumption.
      now apply event_position_one.
    + rewrite event_position_app by assumption.
      rewrite event_position_cons, Hb. reflexivity.
  - inversion H; subst.
    destruct (loop_body_finish_full _ _ _ _ Hbody)
      as (_ & [(-> & _)
              |[(-> & _)|[(a & _ & Hb & ->)|(a & _ & Hs & ->)]]]).
    + exact I.
    + left; assumption.
    + right. exists (events st), (arrival_byte a). repeat split; auto.
      rewrite event_position_app by assumption.
      rewrite event_position_cons, Hb. reflexivity.
    + rewrite event_position_app by assumption.
      apply event_position_one. rewrite Hs. discriminate.
Qed.

(** Every transfer [read_xfer] returns is printed without an exception:
    on the path of [interact] that has no timeout, [print_xfer] returns
    the counter advanced by the START events of the transfer. *)
Theorem read_xfer_returned_is_printable :
  forall src xfer rest w counter,
    read_xfer src = Some (Returned xfer, rest, w) ->
    snd (print_xfer xfer counter) =
    Return (counter + Z.of_nat (starts (iter_xfer xfer))).
Proof.
  intros src xfer rest w counter H.
  apply print_loop_returns.
  exact (read_loop_event_position _ (fresh src) _ _ _ eq_refl H).
Qed.

Lemma read_xfer_returned_is_printable_witness :
  snd (print_xfer [0x10; 0x30; 0xA0; 0x40; 0x20] 3) =
  Return (3 + Z.of_nat (starts (iter_xfer [0x10; 0x30; 0xA0; 0x40; 0x20]))).
Proof.
  apply (read_xfer_returned_is_printable
           [Late 0x10; Prompt 0x30; Prompt 0xA0; Prompt 0x40; Prompt 0x20]
           [0x10; 0x30; 0xA0; 0x40; 0x20] [] [] 3).
  reflexivity.
Defined.



Lemma frame_ok_cons e rest :
  frame_ok (e :: rest) =
    if Z.land e 0xF0 =? Event.BYTE then
      match rest with
      | [] => false
      | _ :: rest => frame_ok rest
      end
    else if Z.land e 0xF0 =? Event.STOP then
      match rest with
      | [] => true
      | _ :: _ => false
      end
    else if known_tag e then frame_ok rest
    else false.
Proof. reflexivity. Qed.

Lemma known_tag_cases v :
  known_tag v = true ->
  (Z.land v 0xF0 =? Event.BYTE) = false ->
  (Z.land v 0xF0 =? Event.STOP) = false ->
  Z.land v 0xF0 = Event.START \/ Z.land v 0xF0 = Event.ACK.
Proof.
  unfold known_tag; cbv zeta. intros H Hb Hs. rewrite Hb, Hs in H.
  rewrite !orb_false_r in H. apply orb_prop in H.
  destruct H as [H|H]; apply Z.eqb_eq in H; auto.
Qed.

Lemma read_loop_frame rest fuel :
  forall st src,
    iface st = src ++ rest ->
    frame_ok (map arrival_byte src) = true ->
    (timeout st = None \/ forallb is_prompt (firstn 1 src) = true) ->
    forallb is_prompt (tl src) = true ->
    (length src <= fuel)%nat ->
    read_loop fuel st =
      Some (Returned (events st ++ map arrival_byte src), rest, log st).
Proof.
  induction fuel as [|fuel IH]; intros st src Hi Hf Hhead Htail Hlen.
  { destruct src; [discriminate|simpl in Hlen; lia]. }
  destruct src as [|a src]; [discriminate|].
  cbn [map] in Hf. rewrite frame_ok_cons in Hf.
  assert (Hread : read_byte (iface st) (timeout st) =
                  Got (arrival_byte a) (src ++ rest)).
  { rewrite Hi. destruct Hhead as [->|Hp].
    - destruct a; reflexivity.
    - destruct a; [|discriminate]. simpl. now destruct (timeout st). }
  cbn [read_loop]. unfold loop_body. rewrite Hread. cbv zeta.
  cbn [tl] in Htail.
  destruct (Z.land (arrival_byte a) 0xF0 =? Event.BYTE) eqn:Hb.
  - apply Z.eqb_eq in Hb. rewrite Hb.
    change (Event.BYTE =? Event.START) with false.
    change (Event.BYTE =? Event.BYTE) with true. cbv iota.
    destruct src as [|a2 src]; [discriminate|].
    cbn [forallb] in Htail. apply andb_prop in Htail.
    destruct Htail as [Hp2 Htail].
    destruct a2 as [d|d]; [|discriminate]. cbn [app read_byte].
    cbn [map] in Hf.
    destruct src as [|a3 src]; [discriminate|].
    rewrite (IH (Reader ((a3 :: src) ++ rest)
                        ((events st ++ [arrival_byte a]) ++ [d])
                        (Some stall_deadline) (log st)) (a3 :: src));
      try reflexivity; try assumption.
    + cbn [events log map arrival_byte]. now rewrite <- !app_assoc.
    + right. cbn [firstn forallb] in *. apply andb_prop in Htail.
      destruct Htail as [-> _]. reflexivity.
    + cbn [tl forallb] in *. apply andb_prop in Htail. apply Htail.
    + simpl in *. lia.
  - destruct (Z.land (arrival_byte a) 0xF0 =? Event.STOP) eqn:Hs.
    + apply Z.eqb_eq in Hs. rewrite Hs.
      change (Event.STOP =? Event.START) with false.
      change (Event.STOP =? Event.BYTE) with false.
      change (Event.STOP =? Event.ACK) with false.
      change (Event.STOP =? Event.STOP) with true. cbv iota.
      destruct src; [|discriminate]. reflexivity.
    + destruct (known_tag (arrival_byte a)) eqn:Hk; [|discriminate].
      destruct src as [|a2 src]; [discriminate|].
      assert (Hrec : read_loop fuel
                (Reader ((a2 :: src) ++ rest) (events st ++ [arrival_byte a])
                        (Some stall_deadline) (log st)) =
              Some (Returned (events st ++ map arrival_byte (a :: a2 :: src)),
                    rest, log st)).
      { rewrite (IH _ (a2 :: src)); try reflexivity; try assumption.
        - cbn [events log map]. now rewrite <- !app_assoc.
        - right. cbn [firstn forallb tl] in *. apply andb_prop in Htail.
          destruct Htail as [-> _]. reflexivity.
        - cbn [tl forallb] in *. apply andb_prop in Htail. apply Htail.
        - simpl in *. lia. }
      destruct (known_tag_cases _ Hk Hb Hs) as [E|E]; rewrite E.
      * change (Event.START =? Event.START) with true. cbv iota. exact Hrec.
      * change (Event.ACK =? Event.START) with false.
        change (Event.ACK =? Event.BYTE) with false.
        change (Event.ACK =? Event.ACK) with true. cbv iota. exact Hrec.
Qed.

(** [read_xfer] returns a whole transfer as it was sent.  When the source
    delivers the bytes of one well-formed transfer, the first after any
    delay and the others within the deadline, [read_xfer] returns exactly
    those bytes, logs nothing and leaves what follows the STOP in the
    source. *)
Theorem read_xfer_returns_frame :
  forall src rest,
    frame_ok (map arrival_byte src) = true ->
    forallb is_prompt (tl src) = true ->
    read_xfer (src ++ rest) = Some (Returned (map arrival_byte src), rest, []).
Proof.
  intros src rest Hf Ht. unfold read_xfer.
  rewrite (read_loop_frame rest _ (fresh (src ++ rest)) src);
    try reflexivity; auto.
  rewrite length_app. lia.
Qed.

Lemma read_xfer_returns_frame_witness :
  read_xfer ([Late 0x10; Prompt 0x30; Prompt 0x20; Prompt 0x41; Prompt 0x20]
               ++ [Prompt 0x10]) =
  Some (Returned
          (map arrival_byte
               [Late 0x10; Prompt 0x30; Prompt 0x20; Prompt 0x41; Prompt 0x20]),
        [Prompt 0x10], []).
Proof.
  apply (read_xfer_returns_frame
           [Late 0x10; Prompt 0x30; Prompt 0x20; Prompt 0x41; Prompt 0x20]
           [Prompt 0x10]); reflexivity.
Defined.

(** ** The processing loop, further *)

Lemma then_inv w0 out0 k w out o :
  then_ w0 out0 k = Some (w, out, o) ->
  exists w1 out1, k = Some (w1, out1, o) /\ w = w0 ++ w1 /\ out = out0 ++ out1.
Proof.
  destruct k as [[[w1 out1] o1]|]; [|discriminate].
  simpl. intros H. inversion H; subst. eauto.
Qed.

Lemma counters_app out1 out2 :
  counters (out1 ++ out2) = counters out1 ++ counters out2.
Proof.
  induction out1 as [|p out1 IH]; [reflexivity|].
  destruct p; simpl; now rewrite IH.
Qed.

Lemma counters_from_app first n m :
  counters_from first (n + m) =
  counters_from first n ++ counters_from (first + Z.of_nat n) m.
Proof.
  revert first. induction n as [|n IH]; intros first.
  - simpl. unfold counters_from at 2. simpl.
    now replace (first + 0) with first by lia.
  - cbn [Nat.add]. rewrite !counters_from_S, IH. cbn [app].
    now replace (first + 1 + Z.of_nat n) with (first + Z.of_nat (S n)) by lia.
Qed.

Lemma read_xfer_returned_not_empty src xfer rest w :
  read_xfer src = Some (Returned xfer, rest, w) -> xfer <> [].
Proof.
  intros H. apply read_loop_returned in H.
  destruct H as (pre & a & consumed & -> & _). simpl.
  destruct pre; discriminate.
Qed.

Lemma interact_loop_without_timeout fuel :
  forall src trace_i2c counter w out o,
    interact_loop fuel src trace_i2c counter = Some (w, out, o) ->
    ~ In Warn_time_out w ->
    exists n,
      o = Waiting (counter + Z.of_nat n)
      /\ counters out = counters_from counter n.
Proof.
  induction fuel as [|fuel IH]; intros src trace_i2c counter w out o H Hw;
    [discriminate|].
  simpl in H.
  destruct (read_xfer src) as [[[o0 rest] w0]|] eqn:Hread; [|discriminate].
  destruct o0 as [xfer|xfer|].
  - pose proof (read_xfer_returned_not_empty _ _ _ _ Hread) as Hne.
    destruct (is_filtered_returns xfer trace_i2c Hne) as (b & Hb).
    destruct (is_filtered xfer trace_i2c) as [w1 r]. simpl in Hb. subst r.
    destruct b.
    + apply then_inv in H. destruct H as (w2 & out2 & Hk & -> & ->).
      apply (IH _ _ _ _ _ _ Hk). intros Hin. apply Hw.
      apply in_or_app. now right.
    + pose proof (print_loop_returns xfer
                    (read_loop_event_position _ (fresh src) _ _ _ eq_refl Hread)
                    false counter) as Hp.
      destruct (print_loop_counters (iter_xfer xfer) counter) as (n1 & Hc & Hr).
      change (print_loop (iter_loop false xfer) counter)
        with (print_xfer xfer counter) in Hp.
      change (print_loop (iter_xfer xfer) counter)
        with (print_xfer xfer counter) in Hc, Hr.
      destruct (print_xfer xfer counter) as [out1 r]. simpl in Hp, Hc, Hr.
      subst r. specialize (Hr _ eq_refl).
      apply then_inv in H. destruct H as (w2 & out2 & Hk & -> & ->).
      rewrite Hr in Hk.
      destruct (IH _ _ _ _ _ _ Hk) as (n2 & -> & Hc2).
      { intros Hin. apply Hw. apply in_or_app. now right. }
      exists (n1 + n2)%nat. split.
      * f_equal. lia.
      * now rewrite counters_app, counters_from_app, Hc, Hc2.
  - exfalso. apply Hw.
    destruct (print_xfer xfer counter) as [out1 [c|e]].
    + apply then_inv in H. destruct H as (w2 & out2 & _ & -> & _).
      apply in_or_app. left. apply in_or_app. right. now left.
    + inversion H; subst. apply in_or_app. right. now left.
  - inversion H; subst. exists O. split; [f_equal; lia|reflexivity].
Qed.

(** As long as no transfer times out, [interact] numbers the START events
    it prints 1, 2, 3, ... without gap or repetition across transfers,
    raises nothing, and ends waiting for the next byte with the counter at
    the last number printed. *)
Theorem interact_counts_without_timeout :
  forall src trace_i2c w out o,
    interact src trace_i2c = Some (w, out, o) ->
    ~ In Warn_time_out w ->
    exists n,
      o = Waiting (Z.of_nat n) /\ counters out = counters_from 0 n.
Proof.
  intros src trace_i2c w out o H Hw.
  destruct (interact_loop_without_timeout _ _ _ _ _ _ _ H Hw) as (n & -> & Hc).
  exists n. split; [reflexivity|assumption].
Qed.

Lemma interact_counts_without_timeout_witness :
  exists n,
    Waiting 3 = Waiting (Z.of_nat n)
    /\ counters [Print_START 1; Print_STOP;
                 Print_START 2; Print_op false; Print_addr 0x50; Print_ack true;
                 Print_START 3; Print_op true; Print_addr 0x50; Print_ack false;
                 Print_STOP] = counters_from 0 n.
Proof.
  apply (interact_counts_without_timeout
           [Prompt 0x10; Prompt 0x20;
            Prompt 0x10; Prompt 0x30; Prompt 0xA2; Prompt 0x40; Prompt 0x20;
            Prompt 0x10; Prompt 0x30; Prompt 0xA0; Prompt 0x40;
            Prompt 0x10; Prompt 0x30; Prompt 0xA1; Prompt 0x41; Prompt 0x20]
           [0x50]
           [Warn_no_address 2]).
  - reflexivity.
  - intros [H|[]]. discriminate.
Defined.




(** ** The gateware and the host together *)

Lemma nibble_cases (P : Z -> Prop) :
  P 0 -> P 1 -> P 2 -> P 3 -> P 4 -> P 5 -> P 6 -> P 7 ->
  P 8 -> P 9 -> P 10 -> P 11 -> P 12 -> P 13 -> P 14 -> P 15 ->
  forall a, 0 <= a < 16 -> P a.
Proof.
  intros. 
  assert (a = 0 \/ a = 1 \/ a = 2 \/ a = 3 \/ a = 4 \/ a = 5 \/ a = 6 \/ a = 7
          \/ a = 8 \/ a = 9 \/ a = 10 \/ a = 11 \/ a = 12 \/ a = 13 \/ a = 14
          \/ a = 15) as Hc by lia.
  repeat (destruct Hc as [->|Hc]; [assumption|]). now subst.
Qed.

(** An ACK byte with a value that fits the low nibble splits back into the
    ACK tag and that value. *)
Lemma ack_byte_decodes ack_o :
  0 <= ack_o < 16 ->
  Z.land (Z.lor Event.ACK ack_o) 0xFF = Z.lor Event.ACK ack_o
  /\ Z.land (Z.lor Event.ACK ack_o) 0xF0 = Event.ACK
  /\ Z.land (Z.lor Event.ACK ack_o) 0x0F = ack_o.
Proof.
  revert ack_o. apply nibble_cases; repeat split; reflexivity.
Qed.

Lemma land_byte_idem b : Z.land (Z.land b 0xFF) 0xFF = Z.land b 0xFF.
Proof. now rewrite <- Z.land_assoc. Qed.

Lemma strobes_inv i s p a b :
  strobes i = (s, p, a, b) ->
  I2CObserverSubtarget.bus_start i = s
  /\ I2CObserverSubtarget.bus_stop i = p
  /\ I2CObserverSubtarget.ack i = a
  /\ I2CObserverSubtarget.byte i = b.
Proof. unfold strobes. intros H. inversion H. auto. Qed.

Ltac use_strobes H r Hr :=
  apply strobes_inv in H; destruct H as (Hs1 & Hs2 & Hs3 & Hs4);
  unfold I2CObserverSubtarget.elaborate;
  rewrite Hr, Hs1, Hs2, Hs3, Hs4;
  cbn [I2CObserverSubtarget.fifo_writes I2CObserverSubtarget.w_en
       I2CObserverSubtarget.w_data I2CObserverSubtarget.fsm
       I2CObserverSubtarget.byte_val].

(** The FIFO receives, for the events signalled one per cycle, the wire
    bytes of each event in turn. *)
Lemma fifo_writes_of_events evs inputs :
  drives evs inputs ->
  acks_fit evs ->
  forall r,
    I2CObserverSubtarget.fsm r = I2CObserverSubtarget.TRACE ->
    I2CObserverSubtarget.fifo_writes (I2CObserverSubtarget.run r inputs) =
    flat_map wire evs.
Proof.
  induction 1 as [|i evs inputs Hi _ IH|i evs inputs Hi _ IH
                  |i evs inputs Hi _ IH|i j evs inputs Hi _ IH
                  |i evs inputs Hi _ IH];
    intros Hfit r Hr; [reflexivity| | | | |].
  - cbn [I2CObserverSubtarget.run flat_map wire app].
    cbn [I2CObserverSubtarget.fifo_writes].
    use_strobes Hi r Hr. f_equal. apply IH; [|reflexivity].
    intros a Ha. apply Hfit. now right.
  - cbn [I2CObserverSubtarget.run flat_map wire app].
    cbn [I2CObserverSubtarget.fifo_writes].
    use_strobes Hi r Hr. f_equal. apply IH; [|reflexivity].
    intros a Ha. apply Hfit. now right.
  - cbn [I2CObserverSubtarget.run flat_map wire app].
    cbn [I2CObserverSubtarget.fifo_writes].
    use_strobes Hi r Hr.
    destruct (ack_byte_decodes (I2CObserverSubtarget.ack_o i)) as (-> & _).
    { apply Hfit. now left. }
    f_equal. apply IH; [|reflexivity].
    intros a Ha. apply Hfit. now right.
  - cbn [I2CObserverSubtarget.run flat_map wire app].
    cbn [I2CObserverSubtarget.fifo_writes].
    use_strobes Hi r Hr.
    rewrite land_byte_idem. f_equal. f_equal. apply IH; [|reflexivity].
    intros a Ha. apply Hfit. now right.
  - cbn [I2CObserverSubtarget.run flat_map wire app].
    cbn [I2CObserverSubtarget.fifo_writes].
    use_strobes Hi r Hr. apply IH; [|reflexivity].
    intros a Ha. apply Hfit. now right.
Qed.

Lemma iter_loop_of_events evs :
  acks_fit evs ->
  forall flag,
    map (fun y : yielded => let '(event, data, _) := y in (event, data))
        (iter_loop flag (flat_map wire evs)) =
    flat_map sent evs.
Proof.
  induction evs as [|ev evs IH]; intros Hfit flag; [reflexivity|].
  assert (Hfit' : acks_fit evs) by (intros a Ha; apply Hfit; now right).
  destruct ev as [| |a|b|]; cbn [flat_map wire sent app].
  - rewrite iter_loop_cons. simpl. f_equal. now apply IH.
  - rewrite iter_loop_cons. simpl. f_equal. now apply IH.
  - rewrite iter_loop_cons. cbv zeta.
    destruct (ack_byte_decodes a) as (_ & -> & ->); [apply Hfit; now left|].
    simpl. f_equal. now apply IH.
  - rewrite iter_loop_cons. simpl. f_equal. now apply IH.
  - now apply IH.
Qed.

(** Round trip from the bus to the decoder.  When the observer signals
    events one per cycle, and acknowledge values fit the low nibble, the
    bytes that [I2CObserverSubtarget] writes to the FIFO decode with
    [iter_xfer] to exactly those events, in order: each START and STOP,
    each ACK with its value, each BYTE with its 8-bit value. *)
Theorem gateware_to_iter_xfer_round_trip :
  forall evs inputs,
    drives evs inputs ->
    acks_fit evs ->
    map (fun y : yielded => let '(event, data, _) := y in (event, data))
        (iter_xfer
           (I2CObserverSubtarget.fifo_writes
              (I2CObserverSubtarget.run I2CObserverSubtarget.reset inputs))) =
    flat_map sent evs.
Proof.
  intros evs inputs Hd Hfit.
  rewrite (fifo_writes_of_events evs inputs Hd Hfit
             I2CObserverSubtarget.reset eq_refl).
  now apply iter_loop_of_events.
Qed.

Lemma gateware_to_iter_xfer_round_trip_witness :
  map (fun y : yielded => let '(event, data, _) := y in (event, data))
      (iter_xfer
         (I2CObserverSubtarget.fifo_writes
            (I2CObserverSubtarget.run I2CObserverSubtarget.reset
               [I2CObserverSubtarget.Observer true false false 0 false 0;
                I2CObserverSubtarget.Observer false false false 0 true 0xA3;
                I2CObserverSubtarget.Observer true true true 1 true 0xFF;
                I2CObserverSubtarget.Observer false false true 1 false 0xA3;
                I2CObserverSubtarget.Observer false false false 1 false 0xA3;
                I2CObserverSubtarget.Observer false true false 1 false 0xA3])))
  = flat_map sent [Bus_start; Bus_byte 0xA3; Bus_ack 1; Bus_idle; Bus_stop].
Proof.
  apply (gateware_to_iter_xfer_round_trip
           [Bus_start; Bus_byte 0xA3; Bus_ack 1; Bus_idle; Bus_stop]).
  - apply drives_start; [reflexivity|].
    apply (drives_byte
             (I2CObserverSubtarget.Observer false false false 0 true 0xA3));
      [reflexivity|].
    apply (drives_ack
             (I2CObserverSubtarget.Observer false false true 1 false 0xA3));
      [reflexivity|].
    apply drives_idle; [reflexivity|].
    apply drives_stop; [reflexivity|].
    apply drives_nil.
  - intros a [H|[H|[H|[H|[H|[]]]]]]; try discriminate.
    injection H as <-. lia.
Defined.

Lemma list_pair_ind {A} (P : list A -> Prop) :
  P [] ->
  (forall x l, P l -> P (tl l) -> P (x :: l)) ->
  forall l, P l.
Proof.
  intros Hnil Hcons l.
  enough (H : P l /\ P (tl l)) by apply H.
  induction l as [|x l [IH1 IH2]]; simpl; auto.
Qed.

Lemma last_cons {A} (x d : A) l : last (x :: l) d = last l x.
Proof.
  revert x d. induction l as [|y l IH]; intros x d; [reflexivity|].
  change (last (x :: y :: l) d) with (last (y :: l) d).
  now rewrite !IH.
Qed.

Lemma final_state_cons r i inputs :
  I2CObserverSubtarget.final_state r (i :: inputs) =
  I2CObserverSubtarget.final_state (I2CObserverSubtarget.elaborate r i) inputs.
Proof.
  unfold I2CObserverSubtarget.final_state.
  cbn [I2CObserverSubtarget.run]. now rewrite last_cons.
Qed.

(** A byte with the START, STOP or ACK tag is one whole token. *)
Lemma one_byte_token w s :
  In (Z.land w 0xF0) [Event.START; Event.STOP; Event.ACK] ->
  dropped_bytes (w :: s) = dropped_bytes s
  /\ event_position (w :: s) = event_position s.
Proof.
  intros H. rewrite dropped_bytes_cons, event_position_cons.
  unfold known_tag; cbv zeta.
  destruct H as [<-|[<-|[<-|[]]]]; split; reflexivity.
Qed.

Lemma gateware_stream_tokens inputs :
  (forall i, In i inputs -> 0 <= I2CObserverSubtarget.ack_o i < 16) ->
  forall r,
    I2CObserverSubtarget.fsm r = I2CObserverSubtarget.TRACE ->
    let stream :=
      I2CObserverSubtarget.fifo_writes (I2CObserverSubtarget.run r inputs) in
    dropped_bytes stream = []
    /\ (event_position stream = true <->
        I2CObserverSubtarget.final_state r inputs = I2CObserverSubtarget.TRACE).
Proof.
  induction inputs as [|i rest IH1 IH2] using list_pair_ind;
    intros Hack r Hr; cbv zeta.
  - unfold I2CObserverSubtarget.final_state. simpl. rewrite Hr.
    split; [reflexivity|split; reflexivity].
  - rewrite final_state_cons. cbn [I2CObserverSubtarget.run].
    assert (Ha : 0 <= I2CObserverSubtarget.ack_o i < 16)
      by (apply Hack; now left).
    assert (Hrest : forall j, In j rest ->
                      0 <= I2CObserverSubtarget.ack_o j < 16)
      by (intros j Hj; apply Hack; now right).
    destruct (ack_byte_decodes _ Ha) as (Hw & Htag & _).
    destruct (I2CObserverSubtarget.byte i) eqn:Hbyte.
    + (* opcode now, data byte in the next cycle *)
      assert (Hstep : exists bv,
                I2CObserverSubtarget.elaborate r i =
                I2CObserverSubtarget.Regs I2CObserverSubtarget.XFER_VAL bv
                                          true Event.BYTE).
      { unfold I2CObserverSubtarget.elaborate. rewrite Hr, Hbyte.
        destruct (I2CObserverSubtarget.bus_start i),
                 (I2CObserverSubtarget.bus_stop i),
                 (I2CObserverSubtarget.ack i); eexists; reflexivity. }
      destruct Hstep as (bv & ->).
      destruct rest as [|j rest].
      * cbn. split; [reflexivity|]. split; discriminate.
      * cbn [I2CObserverSubtarget.run]. rewrite final_state_cons.
        unfold I2CObserverSubtarget.elaborate at 1 2 4.
        cbn [I2CObserverSubtarget.fsm I2CObserverSubtarget.byte_val
             I2CObserverSubtarget.fifo_writes I2CObserverSubtarget.w_en
             I2CObserverSubtarget.w_data].
        rewrite dropped_bytes_cons, event_position_cons.
        change (Z.land Event.BYTE 0xF0 =? Event.BYTE) with true. cbv iota.
        apply (IH2 (fun j' Hj' => Hrest j' (or_intror Hj'))). reflexivity.
    + assert (Hstep :
                (exists w,
                   I2CObserverSubtarget.elaborate r i =
                   I2CObserverSubtarget.Regs I2CObserverSubtarget.TRACE
                     (I2CObserverSubtarget.byte_val r) true w
                   /\ In (Z.land w 0xF0) [Event.START; Event.STOP; Event.ACK])
                \/ (exists w,
                      I2CObserverSubtarget.elaborate r i =
                      I2CObserverSubtarget.Regs I2CObserverSubtarget.TRACE
                        (I2CObserverSubtarget.byte_val r) false w)).
      { unfold I2CObserverSubtarget.elaborate. rewrite Hr, Hbyte.
        destruct (I2CObserverSubtarget.bus_start i),
                 (I2CObserverSubtarget.bus_stop i),
                 (I2CObserverSubtarget.ack i);
          try (right; eexists; reflexivity);
          left; eexists; (split; [reflexivity|]);
          try rewrite Hw, Htag; simpl; auto. }
      destruct Hstep as [(w & -> & Hin)|(w & ->)];
        cbn [I2CObserverSubtarget.fifo_writes I2CObserverSubtarget.w_en
             I2CObserverSubtarget.w_data].
      * destruct (one_byte_token w
                    (I2CObserverSubtarget.fifo_writes
                       (I2CObserverSubtarget.run
                          (I2CObserverSubtarget.Regs I2CObserverSubtarget.TRACE
                             (I2CObserverSubtarget.byte_val r) true w) rest))
                    Hin) as (-> & ->).
        apply (IH1 Hrest). reflexivity.
      * apply (IH1 Hrest). reflexivity.
Qed.

(** Whatever the observer signals, cycle by cycle and also several strobes
    at once, the bytes [I2CObserverSubtarget] writes to the FIFO form
    whole tokens with known tags: no byte in event position has an unknown
    tag, and the stream ends inside a BYTE token exactly when the FSM is
    still in XFER-VAL, with the data byte due in the next cycle.
    (Acknowledge values are taken to fit the low nibble.) *)
Theorem gateware_stream_is_tokens :
  forall inputs,
    (forall i, In i inputs -> 0 <= I2CObserverSubtarget.ack_o i < 16) ->
    dropped_bytes
      (I2CObserverSubtarget.fifo_writes
         (I2CObserverSubtarget.run I2CObserverSubtarget.reset inputs)) = []
    /\ (event_position
          (I2CObserverSubtarget.fifo_writes
             (I2CObserverSubtarget.run I2CObserverSubtarget.reset inputs)) = true
        <-> I2CObserverSubtarget.final_state I2CObserverSubtarget.reset inputs
            = I2CObserverSubtarget.TRACE).
Proof.
  intros inputs Hack.
  exact (gateware_stream_tokens inputs Hack I2CObserverSubtarget.reset eq_refl).
Qed.

Lemma gateware_stream_is_tokens_witness :
  dropped_bytes
    (I2CObserverSubtarget.fifo_writes
       (I2CObserverSubtarget.run I2CObserverSubtarget.reset
          [I2CObserverSubtarget.Observer true true true 1 false 0;
           I2CObserverSubtarget.Observer true false false 0 true 0x1FF;
           I2CObserverSubtarget.Observer true true true 1 true 0])) = []
  /\ (event_position
        (I2CObserverSubtarget.fifo_writes
           (I2CObserverSubtarget.run I2CObserverSubtarget.reset
              [I2CObserverSubtarget.Observer true true true 1 false 0;
               I2CObserverSubtarget.Observer true false false 0 true 0x1FF;
               I2CObserverSubtarget.Observer true true true 1 true 0])) = true
      <-> I2CObserverSubtarget.final_state I2CObserverSubtarget.reset
            [I2CObserverSubtarget.Observer true true true 1 false 0;
             I2CObserverSubtarget.Observer true false false 0 true 0x1FF;
             I2CObserverSubtarget.Observer true true true 1 true 0]
          = I2CObserverSubtarget.TRACE).
Proof.
  apply (gateware_stream_is_tokens
           [I2CObserverSubtarget.Observer true true true 1 false 0;
            I2CObserverSubtarget.Observer true false false 0 true 0x1FF;
            I2CObserverSubtarget.Observer true true true 1 true 0]).
  intros i [<-|[<-|[<-|[]]]]; simpl; lia.
Defined.

Lemma dropped_bytes_prefix xs ys :
  dropped_bytes (xs ++ ys) = [] -> dropped_bytes xs = [].
Proof.
  induction xs as [|e rest IH1 IH2] using token_ind; [reflexivity|].
  cbn [app]. rewrite !dropped_bytes_cons.
  destruct (Z.land e 0xF0 =? Event.BYTE).
  - destruct rest as [|d rest]; [reflexivity|]. exact IH2.
  - destruct (known_tag e); [exact IH1|discriminate].
Qed.

Lemma kept_bytes_all bytes :
  dropped_bytes bytes = [] -> kept_bytes bytes = bytes.
Proof.
  induction bytes as [|e rest IH1 IH2] using token_ind; [reflexivity|].
  rewrite dropped_bytes_cons, kept_bytes_cons.
  destruct (Z.land e 0xF0 =? Event.BYTE).
  - destruct rest as [|d rest]; [reflexivity|].
    intros H. simpl in IH2. now rewrite IH2.
  - destruct (known_tag e); [|discriminate].
    intros H. now rewrite IH1.
Qed.

(** The host never meets an unknown event on what the gateware sends.
    When the source delivers the bytes [I2CObserverSubtarget] wrote to the
    FIFO, whatever the observer signalled and however the bytes are
    timed, [read_xfer] logs no warning, and the transfer it hands over is
    exactly the bytes it took from the source. *)
Theorem read_xfer_of_gateware_stream :
  forall inputs src o rest w,
    (forall i, In i inputs -> 0 <= I2CObserverSubtarget.ack_o i < 16) ->
    map arrival_byte src =
      I2CObserverSubtarget.fifo_writes
        (I2CObserverSubtarget.run I2CObserverSubtarget.reset inputs) ->
    read_xfer src = Some (o, rest, w) ->
    w = []
    /\ exists consumed,
         src = consumed ++ rest
         /\ forall xfer, handed_over (read_xfer src) = Some xfer ->
                         xfer = map arrival_byte consumed.
Proof.
  intros inputs src o rest w Hack Hsrc H.
  destruct (gateware_stream_tokens inputs Hack I2CObserverSubtarget.reset eq_refl)
    as [Hdrop _].
  cbv zeta in Hdrop. rewrite <- Hsrc in Hdrop.
  destruct (read_loop_accounts _ _ _ _ _ H) as (consumed & Hc & Hw & Ho).
  simpl in Hc, Hw, Ho.
  rewrite Hc, map_app in Hdrop. apply dropped_bytes_prefix in Hdrop.
  rewrite Hdrop in Hw. split; [exact Hw|].
  exists consumed. split; [exact Hc|].
  intros xfer Hx. rewrite H in Hx.
  rewrite (kept_bytes_all _ Hdrop) in Ho.
  destruct o; simpl in Hx; try discriminate; injection Hx as <-; exact Ho.
Qed.

Lemma read_xfer_of_gateware_stream_witness :
  @nil warning = []
  /\ exists consumed,
       [Late 0x10; Prompt 0x30; Prompt 0x00; Prompt 0x20; Prompt 0x41] =
         consumed ++ [Prompt 0x41]
       /\ forall xfer,
            handed_over
              (read_xfer [Late 0x10; Prompt 0x30; Prompt 0x00; Prompt 0x20;
                          Prompt 0x41]) = Some xfer ->
            xfer = map arrival_byte consumed.
Proof.
  apply (read_xfer_of_gateware_stream
           [I2CObserverSubtarget.Observer true false false 0 false 0;
            I2CObserverSubtarget.Observer false false false 0 true 0x100;
            I2CObserverSubtarget.Observer true true true 1 true 0xFF;
            I2CObserverSubtarget.Observer true true false 0 false 0;
            I2CObserverSubtarget.Observer false false true 1 false 0]
           [Late 0x10; Prompt 0x30; Prompt 0x00; Prompt 0x20; Prompt 0x41]
           (Returned [0x10; 0x30; 0x00; 0x20])).
  - intros i [<-|[<-|[<-|[<-|[<-|[]]]]]]; simpl; lia.
  - reflexivity.
  - reflexivity.
Defined.

(** ** Colours *)

Lemma substring_append_middle c s e :
  String.substring (String.length c) (String.length s)
                   (String.append c (String.append s e)) = s.
Proof.
  induction c as [|a c IH]; simpl.
  - induction s as [|b s IHs]; simpl.
    + now destruct e.
    + now rewrite IHs.
  - exact IH.
Qed.

Lemma length_append s1 s2 :
  String.length (String.append s1 s2) = (String.length s1 + String.length s2)%nat.
Proof. induction s1 as [|a s1 IH]; simpl; [reflexivity|now rewrite IH]. Qed.

(** The colour helpers never alter the text they are given.  On Windows
    ([os.name == 'nt']) or with [CliColor.Disabled] set they return it
    unchanged; otherwise they return it, whole and in place, between the
    5-character colour code and the 4-character reset code. *)
Theorem cli_keeps_text :
  forall os_name Disabled s,
    Forall
      (fun out : String.string =>
         if String.eqb os_name cli_colors.nt || Disabled then out = s
         else
           String.substring 5 (String.length s) out = s
           /\ String.length out = (String.length s + 9)%nat)
      [cli_colors.cli_green os_name Disabled s;
       cli_colors.cli_yellow os_name Disabled s;
       cli_colors.cli_red os_name Disabled s;
       cli_colors.cli_blue os_name Disabled s].
Proof.
  intros os_name Disabled s.
  unfold cli_colors.cli_green, cli_colors.cli_yellow, cli_colors.cli_red,
    cli_colors.cli_blue, cli_colors._cli.
  unfold cli_colors.nt.
  destruct (String.eqb os_name _ || Disabled).
  - repeat constructor.
  - repeat constructor;
      try (rewrite !length_append; simpl; lia);
      match goal with
      | |- String.substring _ _ (String.append ?c _) = _ =>
        change 5%nat with (String.length c); apply substring_append_middle
      end.
Qed.

(** ** The decoder and the reader *)

Lemma iter_loop_kept_bytes xfer :
  forall flag, iter_loop flag (kept_bytes xfer) = iter_loop flag xfer.
Proof.
  induction xfer as [|e rest IH1 IH2] using token_ind; intros flag;
    [reflexivity|].
  rewrite kept_bytes_cons.
  destruct (Z.land e 0xF0 =? Event.BYTE) eqn:Hbyte.
  - destruct rest as [|d rest]; [reflexivity|].
    apply Z.eqb_eq in Hbyte.
    rewrite !iter_loop_cons; cbv zeta. rewrite Hbyte.
    change (Event.BYTE =? Event.START) with false.
    change (Event.BYTE =? Event.BYTE) with true. cbv iota.
    apply f_equal. apply IH2.
  - destruct (known_tag e) eqn:Hk.
    + rewrite !iter_loop_cons; cbv zeta. rewrite Hbyte.
      destruct (Z.land e 0xF0 =? Event.START); [apply f_equal, IH1|].
      destruct (Z.land e 0xF0 =? Event.ACK); [apply f_equal, IH1|].
      destruct (Z.land e 0xF0 =? Event.STOP); [apply f_equal, IH1|apply IH1].
    + rewrite (iter_loop_unknown flag e rest Hk). apply IH1.
Qed.

(** The decoder is blind to noise: [iter_xfer] yields the same tuples for
    a byte sequence and for that sequence with every byte that has an
    unknown tag in event position taken out, which is what [read_xfer]
    keeps of it. *)
Theorem iter_xfer_ignores_unknown_bytes :
  forall xfer, iter_xfer (kept_bytes xfer) = iter_xfer xfer.
Proof. intros xfer. apply iter_loop_kept_bytes. Qed.
